(** * Deadline reminder: dashboard aggregation, completion log, offline cache

    A shallow embedding of the logic of [app.js] (modules [App] and [Ops])
    and of the service worker [sw.js] (modules [SW] and [Worker]), with the
    properties the specification states about them and further properties
    of the code.

    Modelling conventions.
    - A JavaScript [Date] is the number of milliseconds since the epoch
      ([Z]).  The local time zone is a fixed offset [tz] in milliseconds
      (local time = UTC + tz); daylight-saving changes are not modelled.
    - A date string [YYYY-MM-DD] is represented by the number of the
      calendar day it denotes (days since 1970-01-01).  Strings that are not
      dates are not represented.
    - [localStorage] holds already parsed values; a key that was never
      written is [None].  Malformed JSON and quota failures are not
      represented. *)

From stdpp Require Import base numbers list strings gmap pretty sorting.

Open Scope Z_scope.

Module App.

(** ** 1. Time and dates *)

Definition MS_PER_DAY : Z := 1000 * 60 * 60 * 24.

(** The instant at which the code runs and the offset of the local zone. *)
Record Clock := { now : Z; tz : Z }.

(** Calendar day, in local time, of the instant [t]. *)
Definition localDay (c : Clock) (t : Z) : Z := (t + tz c) `div` MS_PER_DAY.

(** [new Date(dateStr + 'T00:00:00')]: a date-time without offset is local
    time, so this is local midnight of the day. *)
Definition localMidnight (c : Clock) (day : Z) : Z := day * MS_PER_DAY - tz c.

(** [new Date(key)] for a date-only string: ECMAScript reads it as UTC. *)
Definition utcMidnight (day : Z) : Z := day * MS_PER_DAY.

(** [d.setHours(0, 0, 0, 0)] *)
Definition setHours0 (c : Clock) (t : Z) : Z := localMidnight c (localDay c t).

(** [d.getDay()]: 0 is Sunday; 1970-01-01 was a Thursday. *)
Definition getDay (c : Clock) (t : Z) : Z := (localDay c t + 4) `mod` 7.

(** [d.setDate(d.getDate() - n)]: same local time of day, [n] days back.
    With the fixed offset that is [n] times 24 hours; across a clock change
    the real instant is an hour earlier or later. *)
Definition setDateBack (n : Z) (t : Z) : Z := t - n * MS_PER_DAY.

(** Modelled from the spec: [formatDateToString] is called by app.js but is
    defined outside it; the spec gives its result as the [YYYY-MM-DD] form of
    the local calendar date, here the day number. *)
Definition formatDateToString (c : Clock) (t : Z) : Z := localDay c t.

Definition getTodayString (c : Clock) : Z := formatDateToString c (now c).

(** [Math.ceil(a / b)] for [b > 0] *)
Definition ceil_div (a b : Z) : Z := - ((- a) `div` b).

(** With the fixed offset the two midnights are a whole number of days
    apart; across a clock change the real difference is an hour more or
    less, which [Math.ceil] rounds up. *)
Definition getDaysRemaining (c : Clock) (dateStr : Z) : Z :=
  let today := setHours0 c (now c) in
  let target := localMidnight c dateStr in
  let diff := target - today in
  ceil_div diff MS_PER_DAY.

(** ** 2. Countdown display *)

Record Countdown := { text : string; cd_class : string }.

Definition getCountdownDisplay (days : Z) : Countdown :=
  if decide (days < 0) then
    {| text := "期限切れ"; cd_class := "countdown-overdue" |}
  else if decide (days = 0) then
    {| text := "今日"; cd_class := "countdown-today" |}
  else if decide (days <= 3) then
    {| text := "あと" +:+ pretty days +:+ "日"; cd_class := "countdown-urgent" |}
  else
    {| text := "あと" +:+ pretty days +:+ "日"; cd_class := "countdown-normal" |}.

(** The [number] field holds a number or the string ['!']. *)
Record CountdownNew :=
  { number : Z + string; label : string; cdn_class : string }.

Definition getCountdownDisplayNew (days : Z) : CountdownNew :=
  if decide (days < 0) then
    {| number := inl (Z.abs days); label := "日超過";
       cdn_class := "countdown-overdue" |}
  else if decide (days = 0) then
    {| number := inr "!"; label := "今日"; cdn_class := "countdown-today" |}
  else if decide (days <= 3) then
    {| number := inl days; label := "日後"; cdn_class := "countdown-urgent" |}
  else
    {| number := inl days; label := "日後"; cdn_class := "countdown-normal" |}.

(** The four buckets of the specification's [classifyUrgency]. *)
Inductive Urgency := overdue | today | urgent | normal.

Global Instance Urgency_eq_dec : EqDecision Urgency.
Proof. solve_decision. Defined.

(** Reading a bucket off the CSS class a display function produced. *)
Definition bucket_of_class (cls : string) : option Urgency :=
  if decide (cls = "countdown-overdue") then Some overdue
  else if decide (cls = "countdown-today") then Some today
  else if decide (cls = "countdown-urgent") then Some urgent
  else if decide (cls = "countdown-normal") then Some normal
  else None.

Definition bucket (days : Z) : option Urgency :=
  bucket_of_class (cd_class (getCountdownDisplay days)).

Definition bucketNew (days : Z) : option Urgency :=
  bucket_of_class (cdn_class (getCountdownDisplayNew days)).

(** ** 3. Stored data *)

Record Schedule :=
  { s_id : string; s_title : string; s_date : Z; s_memo : string }.

Record Routine :=
  { r_id : string; r_title : string; frequency : string;
    weekdays : list Z; enabled : bool }.

Record Todo :=
  { t_id : string; t_text : string; completed : bool; createdAt : string }.

(** An entry of the dashboard list: a stored schedule as it is, or the
    object [updateDashboard] builds for a routine ([type] and [isRoutine]
    are absent, hence falsy, on a schedule). *)
Record Item :=
  { id : string; title : string; type : option string; date : Z;
    memo : string; isRoutine : bool }.

Definition of_schedule (s : Schedule) : Item :=
  {| id := s_id s; title := s_title s; type := None; date := s_date s;
     memo := s_memo s; isRoutine := false |}.

(** [localStorage], one field per key of [STORAGE_KEYS] used below.  The
    completion log maps a date key to the ids checked off that day. *)
Record Store :=
  { deadline_schedules : option (list Schedule);
    deadline_routines : option (list Routine);
    deadline_todos : option (list Todo);
    deadline_routine_checks : option (gmap Z (list string)) }.

(** [loadFromStorage]: [data ? JSON.parse(data) : []] *)
Definition loadFromStorage {A} (data : option (list A)) : list A :=
  match data with Some l => l | None => [] end.

Definition getSchedules (st : Store) : list Schedule :=
  loadFromStorage (deadline_schedules st).
Definition getRoutines (st : Store) : list Routine :=
  loadFromStorage (deadline_routines st).
Definition getTodos (st : Store) : list Todo :=
  loadFromStorage (deadline_todos st).

(** ** 4. Completion log *)

(** [data ? JSON.parse(data) : {}] on the completion log *)
Definition parsedChecks (st : Store) : gmap Z (list string) :=
  match deadline_routine_checks st with Some m => m | None => ∅ end.

Definition getRoutineChecks (c : Clock) (st : Store) : list string :=
  let todayKey := getTodayString c in
  let checks := parsedChecks st in
  match checks !! todayKey with Some ids => ids | None => [] end.

(** The test of the pruning loop: [new Date(key) < weekAgo]. *)
Definition expired (weekAgo : Z) (key : Z) : bool :=
  bool_decide (utcMidnight key < weekAgo).

Definition saveRoutineChecks (c : Clock) (checkedIds : list string)
    (st : Store) : Store :=
  let todayKey := getTodayString c in
  let checks := parsedChecks st in
  let weekAgo := setDateBack 7 (now c) in
  let checks := filter (λ kv, negb (expired weekAgo kv.1)) checks in
  let checks := <[todayKey := checkedIds]> checks in
  {| deadline_schedules := deadline_schedules st;
     deadline_routines := deadline_routines st;
     deadline_todos := deadline_todos st;
     deadline_routine_checks := Some checks |}.

(** [Array.prototype.indexOf]: first position, or -1. *)
Fixpoint indexOf (x : string) (l : list string) : Z :=
  match l with
  | [] => -1
  | y :: l' =>
      if decide (y = x) then 0
      else let i := indexOf x l' in if decide (i = -1) then -1 else i + 1
  end.

(** [l.splice(index, 1)] for [index >= 0] *)
Definition splice1 (index : Z) (l : list string) : list string :=
  delete (Z.to_nat index) l.

(** The data part of [toggleRoutineCheck]: the new list, then the save. *)
Definition toggled (id0 : string) (checks : list string) : list string :=
  let index := indexOf id0 checks in
  if decide (index = -1) then checks ++ [id0] else splice1 index checks.

(** ** 5. Routines due today *)

(** [r.weekdays.includes(dayOfWeek)] *)
Definition includes (l : list Z) (x : Z) : bool := bool_decide (x ∈ l).

(** The callback of the second [filter], the same in [updateDashboard] and
    in [renderTodayRoutines]. *)
Definition dueOn (dayOfWeek : Z) (r : Routine) : bool :=
  if bool_decide (frequency r = "daily") then true
  else if bool_decide (frequency r = "weekly")
          && includes (weekdays r) dayOfWeek
       then true
  else false.

Definition dueRoutines (dayOfWeek : Z) (routines : list Routine)
    : list Routine :=
  filter (λ r, dueOn dayOfWeek r) (filter (λ r, enabled r) routines).

Definition routineItem (todayStr : Z) (r : Routine) : Item :=
  {| id := "routine_" +:+ r_id r; title := r_title r;
     type := Some "routine"; date := todayStr; memo := "";
     isRoutine := true |}.

Inductive TodayRoutinesView :=
  | RoutinesHidden
  | RoutinesShown (rows : list (Routine * bool)).

Definition renderTodayRoutines (c : Clock) (st : Store) : TodayRoutinesView :=
  let routines := getRoutines st in
  let dayOfWeek := getDay c (now c) in
  let checks := getRoutineChecks c st in
  let todayRoutines := dueRoutines dayOfWeek routines in
  if decide (length todayRoutines = 0%nat) then RoutinesHidden
  else RoutinesShown
         (map (λ r, (r, bool_decide (r_id r ∈ checks))) todayRoutines).

(** The routines the "today" panel lists. *)
Definition shownRoutines (v : TodayRoutinesView) : list Routine :=
  match v with
  | RoutinesHidden => []
  | RoutinesShown rows => map fst rows
  end.

(** A routine is due on a weekday, as the resolver of the spec has it. *)
Definition isDue (dayOfWeek : Z) (r : Routine) : Prop :=
  frequency r = "daily"
  ∨ (frequency r = "weekly" ∧ dayOfWeek ∈ weekdays r).

(** ** 6. Dashboard *)

(** [Array.prototype.sort(compare)]: the language requires the sort to be
    stable, and a stable sort by a consistent comparison has one result;
    insertion from the right computes it. *)
Section sort.
Context {A : Type} (compare : A → A → Z).

Fixpoint insert_sorted (x : A) (l : list A) : list A :=
  match l with
  | [] => [x]
  | y :: l' =>
      if decide (compare x y <= 0) then x :: y :: l'
      else y :: insert_sorted x l'
  end.

Definition sort (l : list A) : list A := foldr insert_sorted [] l.
End sort.

Record Stats := { totalCount : nat; urgentCount : nat; overdueCount : nat }.

Definition updateStats (c : Clock) (schedules : list Schedule) : Stats :=
  {| totalCount := length schedules;
     urgentCount :=
       length (filter (λ item, let days := getDaysRemaining c (s_date item) in
                               days >= 0 ∧ days <= 3) schedules);
     overdueCount :=
       length (filter (λ item, let days := getDaysRemaining c (s_date item) in
                               days < 0 ∧ days >= -14) schedules) |}.

(** One card of the list; the title, date and memo it prints are those of
    [card_item], the badge is shown when [isRoutine] holds. *)
Record Card :=
  { cardClass : string; countdown : CountdownNew; card_item : Item }.

Definition renderCard (c : Clock) (item : Item) : Card :=
  let days := getDaysRemaining c (date item) in
  let countdown := getCountdownDisplayNew days in
  let cardClass := "schedule-card" in
  let cardClass :=
    if decide (days < 0) then cardClass +:+ " overdue"
    else if decide (days = 0) then cardClass +:+ " today"
    else if decide (days <= 3) then cardClass +:+ " urgent"
    else cardClass in
  {| cardClass := cardClass; countdown := countdown; card_item := item |}.

(** What the to-do section of the dashboard displays. *)
Inductive TodoSection :=
  | TodoHidden
  | TodoAllDone
  | TodoItems (items : list Todo).

Definition renderDashboardTodos (st : Store) : TodoSection :=
  let todos := getTodos st in
  let incompleteTodos := take 10 (filter (λ t, negb (completed t)) todos) in
  if decide (length incompleteTodos = 0%nat ∧ length todos = 0%nat)
  then TodoHidden
  else if decide (length incompleteTodos = 0%nat) then TodoAllDone
  else TodoItems incompleteTodos.

(** What the schedule list displays: the empty-state element or the cards. *)
Inductive ScheduleList :=
  | EmptyState
  | Cards (cards : list Card).

Definition renderScheduleList (c : Clock) (st : Store) (items : list Item)
    : ScheduleList * TodoSection :=
  (if decide (length items = 0%nat) then EmptyState
   else Cards (map (renderCard c) items),
   renderDashboardTodos st).

(** The arrays [todayRoutines], [recentSchedules] and [validSchedules] of
    [updateDashboard]. *)
Definition todayRoutines (c : Clock) (st : Store) : list Item :=
  let routines := getRoutines st in
  let todayStr := getTodayString c in
  let dayOfWeek := getDay c (now c) in
  map (routineItem todayStr) (dueRoutines dayOfWeek routines).

Definition recentSchedules (c : Clock) (st : Store) : list Schedule :=
  filter (λ s, getDaysRemaining c (s_date s) >= -14) (getSchedules st).

Definition validSchedules (c : Clock) (st : Store) : list Schedule :=
  filter (λ s, getDaysRemaining c (s_date s) >= -14) (getSchedules st).

(** The array [allItems] of [updateDashboard], before sorting. *)
Definition allItems (c : Clock) (st : Store) : list Item :=
  map of_schedule (validSchedules c st) ++ todayRoutines c st.

(** The comparison function handed to [sort]. *)
Definition byDays (c : Clock) (a b : Item) : Z :=
  let daysA := getDaysRemaining c (date a) in
  let daysB := getDaysRemaining c (date b) in
  daysA - daysB.

(** The array [sortedItems] of [updateDashboard]: the merged feed. *)
Definition sortedItems (c : Clock) (st : Store) : list Item :=
  sort (byDays c) (allItems c st).

Record Dashboard :=
  { stats : Stats; scheduleList : ScheduleList; todoSection : TodoSection }.

(** [updateDashboard] reads the store and writes the page only; the store
    it leaves is returned with the page. *)
Definition updateDashboard (c : Clock) (st : Store) : Store * Dashboard :=
  let stats := updateStats c (recentSchedules c st) in
  let '(cards, todo) := renderScheduleList c st (sortedItems c st) in
  (st, {| stats := stats; scheduleList := cards; todoSection := todo |}).

(** The items of the displayed list and of the displayed to-do section. *)
Definition shownItems (d : Dashboard) : list Item :=
  match scheduleList d with
  | EmptyState => []
  | Cards cards => map card_item cards
  end.

Definition shownTodos (d : Dashboard) : list Todo :=
  match todoSection d with
  | TodoItems items => items
  | _ => []
  end.

(** The dashboard [updateDashboard] draws. *)
Definition dashboard (c : Clock) (st : Store) : Dashboard :=
  (updateDashboard c st).2.

(** The position of an item in a list precedes that of another. *)
Definition precedes {A} (a b : A) (l : list A) : Prop :=
  ∃ l1 l2 l3, l = l1 ++ a :: l2 ++ b :: l3.

Definition toggleRoutineCheck (c : Clock) (id0 : string) (st : Store)
    : Store * (TodayRoutinesView * Dashboard) :=
  let checks := getRoutineChecks c st in
  let st := saveRoutineChecks c (toggled id0 checks) st in
  let today := renderTodayRoutines c st in
  let '(st, dash) := updateDashboard c st in
  (st, (today, dash)).

(** The store a toggle leaves. *)
Definition toggle (c : Clock) (id0 : string) (st : Store) : Store :=
  (toggleRoutineCheck c id0 st).1.

(** ** 7. Sample data *)

(** Noon UTC on day 0 (a Thursday), in the UTC zone. *)
Definition noon : Clock := {| now := 12 * 60 * 60 * 1000; tz := 0 |}.

Definition jog : Routine :=
  {| r_id := "r1"; r_title := "jog"; frequency := "daily"; weekdays := [];
     enabled := true |}.

Definition report (day : Z) : Schedule :=
  {| s_id := "s1"; s_title := "report"; s_date := day; s_memo := "" |}.

Definition store_with (schedules : list Schedule) (routines : list Routine)
    (log : gmap Z (list string)) : Store :=
  {| deadline_schedules := Some schedules;
     deadline_routines := Some routines;
     deadline_todos := None;
     deadline_routine_checks := Some log |}.

(** The routine [jog] already checked off today. *)
Definition store_checked : Store := store_with [] [jog] {[0 := ["r1"]]}.

(** One schedule, due today. *)
Definition store_due_today : Store := store_with [report 0] [] ∅.


(** A completion entry dated ten days before today, and today's, empty. *)
Definition store_old_entry : Store :=
  store_with [] [jog] (<[-10 := ["r1"]]> {[0 := []]}).

End App.

Module SW.

(** ** Service worker: the install step

    A promise is a computation over the worker's state that fulfils with a
    value or rejects with a failure; [p.then(f)] runs [f] on fulfilment and
    passes a rejection on.  The network and the storage back end are the
    platform the worker runs on. *)

Definition CACHE_NAME : string := "deadline-app-v1".

Definition ASSETS_TO_CACHE : list string :=
  [ "/"; "/index.html"; "/styles.css"; "/app.js"; "/holidays.js";
    "/manifest.json"; "/icon-192.png"; "/icon-512.png" ].

Record Response := { status : Z; body : string }.

Inductive Failure :=
  | NetworkError (url : string)
  | BadStatus (url : string) (st : Z)
  | StorageError (cache : string).

Record Platform :=
  { network : string → option Response;   (* [None]: the fetch fails *)
    can_open : string → bool;             (* the cache can be opened *)
    can_store : string → string → bool }. (* this entry can be written *)

Record State :=
  { caches : gmap string (gmap string Response);
    console : list string;
    skippedWaiting : bool }.

Definition Promise (A : Type) : Type := State → (Failure + A) * State.

Definition resolve {A} (a : A) : Promise A := λ s, (inr a, s).
Definition reject {A} (f : Failure) : Promise A := λ s, (inl f, s).

(** [p.then(f)] *)
Definition andThen {A B} (p : Promise A) (f : A → Promise B) : Promise B :=
  λ s, match p s with
       | (inr a, s') => f a s'
       | (inl e, s') => (inl e, s')
       end.

Notation "p '.then' f" := (andThen p f) (at level 50, left associativity).

(** [caches.open(name)]: the cache is created when it does not exist. *)
Definition caches_open (pf : Platform) (name : string) : Promise string :=
  λ s, if can_open pf name then
         (inr name,
          {| caches := match caches s !! name with
                       | Some _ => caches s
                       | None => <[name := ∅]> (caches s)
                       end;
             console := console s; skippedWaiting := skippedWaiting s |})
       else (inl (StorageError name), s).

(** The fetch [cache.addAll] makes for one request: a network failure or a
    status outside 200-299 rejects. *)
Definition fetch_ok (pf : Platform) (url : string) : Failure + Response :=
  match network pf url with
  | None => inl (NetworkError url)
  | Some r =>
      if decide (200 <= status r ∧ status r <= 299) then inr r
      else inl (BadStatus url (status r))
  end.

Fixpoint fetch_all (pf : Platform) (urls : list string)
    : Failure + list (string * Response) :=
  match urls with
  | [] => inr []
  | u :: urls' =>
      match fetch_ok pf u with
      | inl e => inl e
      | inr r =>
          match fetch_all pf urls' with
          | inl e => inl e
          | inr rs => inr ((u, r) :: rs)
          end
      end
  end.

(** [cache.addAll(urls)]: every request is fetched first; the entries are
    written together, and nothing is written when one of them cannot be. *)
Definition addAll (pf : Platform) (cache : string) (urls : list string)
    : Promise unit :=
  λ s, match fetch_all pf urls with
       | inl e => (inl e, s)
       | inr rs =>
           if forallb (λ ur, can_store pf cache ur.1) rs then
             let old := match caches s !! cache with
                        | Some m => m | None => ∅ end in
             (inr (),
              {| caches :=
                   <[cache := foldl (λ m ur, <[ur.1 := ur.2]> m) old rs]>
                     (caches s);
                 console := console s; skippedWaiting := skippedWaiting s |})
           else (inl (StorageError cache), s)
       end.

Definition console_log (msg : string) : Promise unit :=
  λ s, (inr (),
        {| caches := caches s; console := console s ++ [msg];
           skippedWaiting := skippedWaiting s |}).

(** [self.skipWaiting()] *)
Definition skipWaiting : Promise unit :=
  λ s, (inr (),
        {| caches := caches s; console := console s;
           skippedWaiting := true |}).

(** The promise the install listener hands to [event.waitUntil]. *)
Definition install (pf : Platform) : Promise unit :=
  (caches_open pf CACHE_NAME
     .then (λ cache,
        console_log "Caching assets"
          .then (λ _, addAll pf cache ASSETS_TO_CACHE)))
     .then (λ _, skipWaiting).

(** [event.waitUntil(p)]: the install step succeeds when [p] fulfils. *)
Definition installed (pf : Platform) (s : State) : bool :=
  match install pf s with (inr _, _) => true | (inl _, _) => false end.

(** What a failing asset is: its fetch rejects or its entry cannot be
    written. *)
Definition asset_fails (pf : Platform) (url : string) : Prop :=
  (∃ e, fetch_ok pf url = inl e) ∨ can_store pf CACHE_NAME url = false.

(** The failures an asset of the manifest can raise. *)
Definition underlying (pf : Platform) (e : Failure) : Prop :=
  (∃ url, url ∈ ASSETS_TO_CACHE ∧ fetch_ok pf url = inl e)
  ∨ (e = StorageError CACHE_NAME
     ∧ (can_open pf CACHE_NAME = false
        ∨ ∃ url, url ∈ ASSETS_TO_CACHE ∧ can_store pf CACHE_NAME url = false)).

(** The entry stored for [url] in the versioned cache. *)
Definition cached (s : State) (url : string) : option Response :=
  caches s !! CACHE_NAME ≫= λ m, m !! url.

(** *** Sample platforms *)

Definition page (url : string) : Response := {| status := 200; body := url |}.

(** Every request answered, every write accepted. *)
Definition online : Platform :=
  {| network := λ url, Some (page url);
     can_open := λ _, true;
     can_store := λ _ _, true |}.

(** The same, but the fetch of [/app.js] fails. *)
Definition app_js_unreachable : Platform :=
  {| network := λ url, if decide (url = "/app.js") then None
                       else Some (page url);
     can_open := λ _, true;
     can_store := λ _ _, true |}.

Definition fresh : State :=
  {| caches := ∅; console := []; skippedWaiting := false |}.

End SW.

Module Ops.
Import App.

(** ** The editing operations of app.js

    An operation takes what it reads from the page (the values of the form
    fields, the id a button carries) and the store, and gives the store it
    leaves; the views are then redrawn from that store by the render
    functions.  [String.prototype.trim] and [generateId] belong to the
    platform: the first is a parameter, the second's result is an argument
    ([newId]). *)

(** [Array.prototype.findIndex]: first position that passes, or -1. *)
Fixpoint findIndex {A} (p : A → bool) (l : list A) : Z :=
  match l with
  | [] => -1
  | x :: l' =>
      if p x then 0
      else let i := findIndex p l' in if decide (i = -1) then -1 else i + 1
  end.

Definition saveSchedules (schedules : list Schedule) (st : Store) : Store :=
  {| deadline_schedules := Some schedules;
     deadline_routines := deadline_routines st;
     deadline_todos := deadline_todos st;
     deadline_routine_checks := deadline_routine_checks st |}.

Definition saveRoutines (routines : list Routine) (st : Store) : Store :=
  {| deadline_schedules := deadline_schedules st;
     deadline_routines := Some routines;
     deadline_todos := deadline_todos st;
     deadline_routine_checks := deadline_routine_checks st |}.

Definition saveTodos (todos : list Todo) (st : Store) : Store :=
  {| deadline_schedules := deadline_schedules st;
     deadline_routines := deadline_routines st;
     deadline_todos := Some todos;
     deadline_routine_checks := deadline_routine_checks st |}.

(** The cards of the dashboard list. *)
Definition shownCards (d : Dashboard) : list Card :=
  match scheduleList d with
  | EmptyState => []
  | Cards cards => cards
  end.

(** ** Routines *)

(** The rows of the "today" panel: a routine and whether it is checked. *)
Definition shownRows (v : TodayRoutinesView) : list (Routine * bool) :=
  match v with
  | RoutinesHidden => []
  | RoutinesShown rows => rows
  end.

(** [r.enabled = !r.enabled] *)
Definition flipEnabled (r : Routine) : Routine :=
  {| r_id := r_id r; r_title := r_title r; frequency := frequency r;
     weekdays := weekdays r; enabled := negb (enabled r) |}.

Definition toggleRoutine (id0 : string) (st : Store) : Store :=
  let routines := getRoutines st in
  let index := findIndex (λ r, bool_decide (r_id r = id0)) routines in
  if decide (index ≠ -1) then
    saveRoutines (alter flipEnabled (Z.to_nat index) routines) st
  else st.

(** What [saveRoutine] does besides returning: nothing, an alert, or a save
    of the store. *)
Inductive Outcome :=
  | Ignored
  | Alerted (message : string)
  | Saved.

(** ** To-dos *)

(** [t.completed = !t.completed] *)
Definition flipCompleted (t : Todo) : Todo :=
  {| t_id := t_id t; t_text := t_text t; completed := negb (completed t);
     createdAt := createdAt t |}.

Definition toggleTodo (id0 : string) (st : Store) : Store :=
  let todos := getTodos st in
  let index := findIndex (λ t, bool_decide (t_id t = id0)) todos in
  if decide (index ≠ -1) then
    saveTodos (alter flipCompleted (Z.to_nat index) todos) st
  else st.

Definition deleteTodo (id0 : string) (st : Store) : Store :=
  let todos := filter (λ t, t_id t ≠ id0) (getTodos st) in
  saveTodos todos st.

(** The comparison of [renderTodoList]: incomplete before completed. *)
Definition incompleteFirst (a b : Todo) : Z :=
  if decide (completed a = completed b) then 0
  else if completed a then 1 else -1.

Inductive TodoListView :=
  | TodoListEmpty
  | TodoListItems (items : list Todo).

Definition renderTodoList (st : Store) : TodoListView :=
  let todos := getTodos st in
  if decide (length todos = 0%nat) then TodoListEmpty
  else TodoListItems (sort incompleteFirst todos).

Definition listedTodos (v : TodoListView) : list Todo :=
  match v with
  | TodoListEmpty => []
  | TodoListItems items => items
  end.

(** ** Memos *)

(** The ISO strings of [createdAt] and [updatedAt] are represented by the
    instants they denote. *)
Record Memo :=
  { m_id : string; m_title : string; m_content : string;
    m_createdAt : Z; m_updatedAt : Z }.

(** The comparison of [renderMemoList]: latest update first. *)
Definition latestFirst (a b : Memo) : Z := m_updatedAt b - m_updatedAt a.

Inductive MemoListView :=
  | MemoListEmpty
  | MemoListCards (cards : list Memo).

(** [getMemos] and [renderMemoList] on the value stored under
    [deadline_memos]. *)
Definition getMemos (stored : option (list Memo)) : list Memo :=
  loadFromStorage stored.

Definition renderMemoList (stored : option (list Memo)) : MemoListView :=
  let memos := getMemos stored in
  if decide (length memos = 0%nat) then MemoListEmpty
  else MemoListCards (sort latestFirst memos).

Definition listedMemos (v : MemoListView) : list Memo :=
  match v with
  | MemoListEmpty => []
  | MemoListCards cards => cards
  end.

(** ** Deleting *)

Record DeleteTarget := { dt_type : string; dt_id : string }.

(** The stored collections with the page's [deleteTarget]. *)
Record AppState :=
  { store : Store;
    deadline_memos : option (list Memo);
    deleteTarget : option DeleteTarget }.

Definition deleteScheduleConfirm (id0 : string) (a : AppState) : AppState :=
  {| store := store a; deadline_memos := deadline_memos a;
     deleteTarget := Some {| dt_type := "schedule"; dt_id := id0 |} |}.

Definition deleteRoutineConfirm (id0 : string) (a : AppState) : AppState :=
  {| store := store a; deadline_memos := deadline_memos a;
     deleteTarget := Some {| dt_type := "routine"; dt_id := id0 |} |}.

Definition deleteMemoConfirm (id0 : string) (a : AppState) : AppState :=
  {| store := store a; deadline_memos := deadline_memos a;
     deleteTarget := Some {| dt_type := "memo"; dt_id := id0 |} |}.

Definition closeDeleteModal (a : AppState) : AppState :=
  {| store := store a; deadline_memos := deadline_memos a;
     deleteTarget := None |}.

Definition confirmDelete (a : AppState) : AppState :=
  match deleteTarget a with
  | None => a
  | Some target =>
      let a :=
        if decide (dt_type target = "schedule") then
          let schedules :=
            filter (λ s, s_id s ≠ dt_id target) (getSchedules (store a)) in
          {| store := saveSchedules schedules (store a);
             deadline_memos := deadline_memos a;
             deleteTarget := deleteTarget a |}
        else if decide (dt_type target = "routine") then
          let routines :=
            filter (λ r, r_id r ≠ dt_id target) (getRoutines (store a)) in
          {| store := saveRoutines routines (store a);
             deadline_memos := deadline_memos a;
             deleteTarget := deleteTarget a |}
        else if decide (dt_type target = "memo") then
          let memos :=
            filter (λ m, m_id m ≠ dt_id target)
              (getMemos (deadline_memos a)) in
          {| store := store a; deadline_memos := Some memos;
             deleteTarget := deleteTarget a |}
        else a in
      closeDeleteModal a
  end.

(** ** Forms *)

Section forms.
Variable trim : string → string.

Definition addTodo (newId nowIso value : string) (st : Store) : Store :=
  let text := trim value in
  if decide (text = "") then st
  else saveTodos
         (getTodos st
          ++ [ {| t_id := newId; t_text := text; completed := false;
                  createdAt := nowIso |} ]) st.

(** [saveMemoForm]: [id0] is the value of the hidden id field, empty for a
    new memo; [now] is the instant of the save. *)
Definition saveMemoForm (newId : string) (now : Z) (id0 title0 content : string)
    (stored : option (list Memo)) : option (list Memo) :=
  let title := trim title0 in
  if decide (title = "") then stored
  else
    let memos := getMemos stored in
    let memos :=
      if decide (id0 ≠ "") then
        let index := findIndex (λ m, bool_decide (m_id m = id0)) memos in
        if decide (index ≠ -1) then
          alter (λ m, {| m_id := m_id m; m_title := title;
                         m_content := content; m_createdAt := m_createdAt m;
                         m_updatedAt := now |}) (Z.to_nat index) memos
        else memos
      else
        memos ++ [ {| m_id := newId; m_title := title; m_content := content;
                      m_createdAt := now; m_updatedAt := now |} ] in
    Some memos.

(** [saveSchedule]: [date0] is the value of the date field, [None] when it
    is empty. *)
Definition saveSchedule (newId id0 title0 : string) (date0 : option Z)
    (memo0 : string) (st : Store) : Store :=
  let title := trim title0 in
  let memo := trim memo0 in
  match date0 with
  | None => st
  | Some date =>
      if decide (title = "") then st
      else
        let schedules := getSchedules st in
        let schedules :=
          if decide (id0 ≠ "") then
            let index :=
              findIndex (λ s, bool_decide (s_id s = id0)) schedules in
            if decide (index ≠ -1) then
              alter (λ s, {| s_id := s_id s; s_title := title;
                             s_date := date; s_memo := memo |})
                (Z.to_nat index) schedules
            else schedules
          else
            schedules ++ [ {| s_id := newId; s_title := title;
                              s_date := date; s_memo := memo |} ] in
        saveSchedules schedules st
  end.

(** [saveRoutine]: [checked] are the values of the ticked weekday boxes, in
    the order of the page. *)
Definition saveRoutine (newId id0 title0 frequency0 : string)
    (checked : list Z) (st : Store) : Outcome * Store :=
  let title := trim title0 in
  if decide (title = "" ∨ frequency0 = "") then (Ignored, st)
  else
    let weekdays0 :=
      if decide (frequency0 = "weekly") then checked else [] in
    if decide (frequency0 = "weekly" ∧ length weekdays0 = 0%nat) then
      (Alerted "曜日を1つ以上選択してください", st)
    else
      let routines := getRoutines st in
      let routines :=
        if decide (id0 ≠ "") then
          let index := findIndex (λ r, bool_decide (r_id r = id0)) routines in
          if decide (index ≠ -1) then
            alter (λ r, {| r_id := r_id r; r_title := title;
                           frequency := frequency0; weekdays := weekdays0;
                           enabled := enabled r |})
              (Z.to_nat index) routines
          else routines
        else
          routines ++ [ {| r_id := newId; r_title := title;
                           frequency := frequency0; weekdays := weekdays0;
                           enabled := true |} ] in
      (Saved, saveRoutines routines st).
End forms.

End Ops.

Module Worker.
Import SW.

(** ** Service worker: activation and fetch

    [caches.keys()] and [caches.match] go through the caches in the order
    of their creation, which the map of caches does not record: that order
    is the argument [order] of the handlers.  A request is a GET request,
    matched by its URL. *)

Record Request := { url : string; destination : string }.

(** The network as the fetch handler sees it: the platform of the install
    step and, for each URL, the [type] of the response it gives. *)
Record Net := { platform : Platform; response_type : string → string }.

(** [caches.delete(name)] *)
Definition caches_delete (name : string) (s : State) : State :=
  {| caches := delete name (caches s); console := console s;
     skippedWaiting := skippedWaiting s |}.

(** The worker after [activate]: its state, and whether it has claimed the
    open pages. *)
Record Activated := { state : State; claimed : bool }.

(** The activate listener: every cache whose name is not [CACHE_NAME] is
    deleted, then the clients are claimed. *)
Definition activate (order : list string) (s : State) : Activated :=
  let stale := filter (λ name, name ≠ CACHE_NAME) order in
  {| state := foldr caches_delete s stale; claimed := true |}.

(** [caches.match(request)]: the entry of the first cache, in the order of
    creation, that has one. *)
Fixpoint caches_match (order : list string) (s : State) (u : string)
    : option Response :=
  match order with
  | [] => None
  | name :: order' =>
      match caches s !! name ≫= (λ m, m !! u) with
      | Some r => Some r
      | None => caches_match order' s u
      end
  end.

(** [caches.open(CACHE_NAME).then(cache => cache.put(request, copy))]: the
    handler does not wait for it and drops its failure; the state is the
    one it leaves once settled. *)
Definition put_copy (pf : Platform) (u : string) (r : Response) (s : State)
    : State :=
  match caches_open pf CACHE_NAME s with
  | (inr cache, s') =>
      if can_store pf cache u then
        let old := match caches s' !! cache with
                   | Some m => m | None => ∅ end in
        {| caches := <[cache := <[u := r]> old]> (caches s');
           console := console s'; skippedWaiting := skippedWaiting s' |}
      else s'
  | (inl _, s') => s'
  end.

(** The fetch listener: what [event.respondWith] is given, [None] being
    [undefined], and the state left. *)
Definition onFetch (net : Net) (order : list string) (request : Request)
    (s : State) : option Response * State :=
  match caches_match order s (url request) with
  | Some cachedResponse => (Some cachedResponse, s)
  | None =>
      match network (platform net) (url request) with
      | Some response =>
          if decide (status response ≠ 200
                     ∨ response_type net (url request) ≠ "basic")
          then (Some response, s)
          else (Some response,
                put_copy (platform net) (url request) response s)
      | None =>
          if decide (destination request = "document")
          then (caches_match order s "/index.html", s)
          else (None, s)
      end
  end.

End Worker.

(** * Properties of [app.js] *)

Import App.

(** ** Time *)

Lemma MS_PER_DAY_pos : 0 < MS_PER_DAY.
Proof. reflexivity. Qed.

Lemma ceil_div_mul (k : Z) : ceil_div (k * MS_PER_DAY) MS_PER_DAY = k.
Proof.
  unfold ceil_div.
  rewrite <- Z.mul_opp_l, Z.div_mul by (pose proof MS_PER_DAY_pos; lia).
  lia.
Qed.

(** With a fixed offset the count is the difference of the day numbers. *)
Lemma getDaysRemaining_diff (c : Clock) (d : Z) :
  getDaysRemaining c d = d - getTodayString c.
Proof.
  unfold getDaysRemaining, setHours0, localMidnight, getTodayString,
    formatDateToString.
  set (t := localDay c (now c)).
  replace (d * MS_PER_DAY - tz c - (t * MS_PER_DAY - tz c))
    with ((d - t) * MS_PER_DAY) by lia.
  apply ceil_div_mul.
Qed.

Lemma getDaysRemaining_today (c : Clock) :
  getDaysRemaining c (getTodayString c) = 0.
Proof. rewrite getDaysRemaining_diff. lia. Qed.

(** The instant [now] lies within the local day [getTodayString]. *)
Lemma now_in_today (c : Clock) :
  getTodayString c * MS_PER_DAY <= now c + tz c
  < (getTodayString c + 1) * MS_PER_DAY.
Proof.
  unfold getTodayString, formatDateToString, localDay.
  pose proof MS_PER_DAY_pos as Hpos.
  pose proof (Z.mul_div_le (now c + tz c) MS_PER_DAY Hpos).
  pose proof (Z.mul_succ_div_gt (now c + tz c) MS_PER_DAY Hpos).
  lia.
Qed.

(** ** Urgency buckets *)

(** C3: for every integer [days] both display functions yield the same one
    of the four buckets, and the bucket is overdue exactly when [days < 0],
    today exactly when [days = 0], urgent exactly when [0 < days <= 3], and
    normal exactly when [days > 3]. *)
Theorem classification_buckets (days : Z) :
  bucket days = bucketNew days
  ∧ (∃ b, bucket days = Some b)
  ∧ (bucket days = Some overdue ↔ days < 0)
  ∧ (bucket days = Some today ↔ days = 0)
  ∧ (bucket days = Some urgent ↔ 0 < days ∧ days <= 3)
  ∧ (bucket days = Some normal ↔ days > 3).
Proof.
  unfold bucket, bucketNew, getCountdownDisplay, getCountdownDisplayNew.
  destruct (decide (days < 0)); [|destruct (decide (days = 0));
    [|destruct (decide (days <= 3))]]; simpl;
    (split; [reflexivity|]); (split; [eauto|]);
    vm_compute bucket_of_class; repeat split; intros; try lia; try congruence.
Qed.

(** ** Lists *)

Lemma elem_of_map {A B} (f : A → B) (l : list A) (y : B) :
  y ∈ map f l ↔ ∃ x, y = f x ∧ x ∈ l.
Proof.
  rewrite list_elem_of_In, in_map_iff.
  split; intros (x & H1 & H2); exists x; rewrite ?list_elem_of_In in *; auto.
Qed.

Lemma precedes_app {A} (a b : A) (X Y : list A) :
  precedes a b (X ++ Y) → a ∈ X ∨ b ∈ Y.
Proof.
  intros (l1 & l2 & l3 & Heq).
  change (l1 ++ a :: l2 ++ b :: l3) with (l1 ++ (a :: l2) ++ b :: l3) in Heq.
  rewrite app_assoc in Heq.
  apply app_eq_inv in Heq as [(k & HX & _) | (k & _ & HY)].
  - left. rewrite HX, !elem_of_app, elem_of_cons. auto.
  - right. rewrite HY, elem_of_app, elem_of_cons. auto.
Qed.

Lemma precedes_filter {A} (P : A → Prop) `{!∀ x, Decision (P x)}
    (a b : A) (l : list A) :
  P a → P b → precedes a b l → precedes a b (filter P l).
Proof.
  intros Ha Hb (l1 & l2 & l3 & ->).
  exists (filter P l1), (filter P l2), (filter P l3).
  rewrite filter_app, (filter_cons_True _ a) by done.
  rewrite filter_app, (filter_cons_True _ b) by done.
  reflexivity.
Qed.

(** ** The sort *)

Section sort_by_key.
Context {A : Type} (key : A → Z).

Let compare (a b : A) : Z := key a - key b.

Lemma insert_sorted_Permutation (x : A) (l : list A) :
  insert_sorted compare x l ≡ₚ x :: l.
Proof.
  induction l as [|y l IH]; simpl; [done|].
  case_decide; [done|]. rewrite IH. apply Permutation_swap.
Qed.

Lemma sort_Permutation (l : list A) : sort compare l ≡ₚ l.
Proof.
  induction l as [|x l IH]; simpl; [done|].
  rewrite insert_sorted_Permutation. by f_equiv.
Qed.

Lemma insert_sorted_sorted (x : A) (l : list A) :
  StronglySorted (λ a b, key a <= key b) l →
  StronglySorted (λ a b, key a <= key b) (insert_sorted compare x l).
Proof.
  induction 1 as [|y l Hl IH Hy]; simpl.
  - repeat constructor.
  - unfold compare at 1. case_decide.
    + constructor; [by constructor|].
      constructor; [lia|].
      eapply Forall_impl; [exact Hy|]. simpl. intros; lia.
    + constructor; [exact IH|].
      rewrite insert_sorted_Permutation.
      constructor; [lia | exact Hy].
Qed.

Lemma sort_sorted (l : list A) :
  StronglySorted (λ a b, key a <= key b) (sort compare l).
Proof.
  induction l as [|x l IH]; simpl; [constructor|].
  by apply insert_sorted_sorted.
Qed.

(** Stability: the elements of one key keep their order. *)
Lemma insert_sorted_filter (k : Z) (x : A) (l : list A) :
  filter (λ a, key a = k) (insert_sorted compare x l)
  = filter (λ a, key a = k) (x :: l).
Proof.
  induction l as [|y l IH]; simpl; [done|].
  unfold compare at 1. case_decide as Hc; [done|].
  rewrite (filter_cons _ y), IH, !(filter_cons _ x), !(filter_cons _ y).
  repeat case_decide; try done; lia.
Qed.

Lemma sort_filter (k : Z) (l : list A) :
  filter (λ a, key a = k) (sort compare l) = filter (λ a, key a = k) l.
Proof.
  induction l as [|x l IH]; simpl; [done|].
  rewrite insert_sorted_filter, !(filter_cons _ x), IH. done.
Qed.

Lemma sort_stable (a b : A) (l : list A) :
  key a = key b → precedes a b (sort compare l) →
  precedes a b (filter (λ x, key x = key a) l).
Proof.
  intros Hab Hp. rewrite <- sort_filter.
  apply precedes_filter; [done | by symmetry | done].
Qed.
End sort_by_key.

(** ** Routines due today *)

Lemma dueOn_isDue (dayOfWeek : Z) (r : Routine) :
  dueOn dayOfWeek r = true ↔ isDue dayOfWeek r.
Proof.
  unfold dueOn, isDue, includes.
  repeat case_bool_decide; simpl; intuition congruence.
Qed.

Lemma elem_of_dueRoutines (dayOfWeek : Z) (routines : list Routine)
    (r : Routine) :
  r ∈ dueRoutines dayOfWeek routines
  ↔ r ∈ routines ∧ enabled r = true ∧ isDue dayOfWeek r.
Proof.
  unfold dueRoutines. rewrite !list_elem_of_filter, <- dueOn_isDue.
  rewrite !Is_true_true. tauto.
Qed.

Lemma shownRoutines_render (c : Clock) (st : Store) :
  shownRoutines (renderTodayRoutines c st)
  = dueRoutines (getDay c (now c)) (getRoutines st).
Proof.
  unfold renderTodayRoutines. simpl. case_decide as Hlen.
  - symmetry. by apply nil_length_inv.
  - simpl. rewrite map_map. simpl. apply map_id.
Qed.

(** C8: the routines resolved as due today, in the "today" panel and in the
    dashboard alike, are those of the stored list that are enabled and
    either daily or weekly with today's weekday among their weekdays; so a
    weekly routine is there exactly when it is enabled and the weekday is a
    member, a daily one exactly when it is enabled, and a disabled one
    never. *)
Theorem due_today_characterised (c : Clock) (st : Store) (r : Routine) :
  let dayOfWeek := getDay c (now c) in
  let due := dueRoutines dayOfWeek (getRoutines st) in
  shownRoutines (renderTodayRoutines c st) = due
  ∧ todayRoutines c st = map (routineItem (getTodayString c)) due
  ∧ (r ∈ due ↔ r ∈ getRoutines st ∧ enabled r = true
               ∧ (frequency r = "daily"
                  ∨ (frequency r = "weekly" ∧ dayOfWeek ∈ weekdays r)))
  ∧ (frequency r = "weekly" →
     (r ∈ due ↔ r ∈ getRoutines st ∧ enabled r = true
                ∧ dayOfWeek ∈ weekdays r))
  ∧ (frequency r = "daily" →
     (r ∈ due ↔ r ∈ getRoutines st ∧ enabled r = true))
  ∧ (enabled r = false → r ∉ due).
Proof.
  intros dayOfWeek due.
  pose proof (elem_of_dueRoutines dayOfWeek (getRoutines st) r) as Hdue.
  fold due in Hdue. unfold isDue in Hdue.
  split; [apply shownRoutines_render|].
  split; [reflexivity|].
  split; [exact Hdue|].
  split; [|split].
  - intros Hw. rewrite Hdue, Hw. intuition congruence.
  - intros Hd. rewrite Hdue, Hd. intuition congruence.
  - intros Hoff. rewrite Hdue, Hoff. intuition congruence.
Qed.

(** ** The dashboard feed *)

Lemma shownItems_dashboard (c : Clock) (st : Store) :
  shownItems (dashboard c st) = sortedItems c st.
Proof.
  unfold dashboard, updateDashboard, renderScheduleList, shownItems. simpl.
  case_decide as Hlen; simpl.
  - symmetry. by apply nil_length_inv.
  - rewrite map_map. simpl. apply map_id.
Qed.

Lemma sortedItems_Permutation (c : Clock) (st : Store) :
  sortedItems c st ≡ₚ allItems c st.
Proof.
  apply (sort_Permutation (λ a, getDaysRemaining c (date a))).
Qed.

Lemma elem_of_sortedItems (c : Clock) (st : Store) (it : Item) :
  it ∈ sortedItems c st
  ↔ it ∈ map of_schedule (validSchedules c st) ∨ it ∈ todayRoutines c st.
Proof.
  rewrite sortedItems_Permutation. unfold allItems. apply elem_of_app.
Qed.

Lemma of_schedule_inj (s s' : Schedule) :
  of_schedule s = of_schedule s' → s = s'.
Proof. destruct s, s'. unfold of_schedule. simpl. congruence. Qed.

Lemma routineItem_inj (d : Z) (r r' : Routine) :
  routineItem d r = routineItem d r' →
  r_id r = r_id r' ∧ r_title r = r_title r'.
Proof.
  unfold routineItem. intros H. injection H as Hid Htitle.
  split; [|done]. exact Hid.
Qed.

Lemma schedules_not_routine (c : Clock) (st : Store) :
  Forall (λ it, isRoutine it = false) (map of_schedule (validSchedules c st)).
Proof. apply Forall_forall. intros it (s & -> & _)%elem_of_map. done. Qed.

Lemma todayRoutines_routine (c : Clock) (st : Store) :
  Forall (λ it, isRoutine it = true ∧ date it = getTodayString c)
    (todayRoutines c st).
Proof. apply Forall_forall. intros it (r & -> & _)%elem_of_map. done. Qed.

(** Two routines of a list with distinct ids that share an id are one. *)
Lemma same_id_same_routine (routines : list Routine) (r r' : Routine) :
  NoDup (map r_id routines) → r ∈ routines → r' ∈ routines →
  r_id r = r_id r' → r = r'.
Proof.
  induction routines as [|x l IH]; simpl; intros Hnd Hr Hr' Hid.
  - by apply elem_of_nil in Hr.
  - apply NoDup_cons in Hnd as [Hx Hnd].
    apply elem_of_cons in Hr as [->|Hr], Hr' as [->|Hr']; auto.
    + exfalso. apply Hx. rewrite Hid. apply elem_of_map. eauto.
    + exfalso. apply Hx. rewrite <- Hid. apply elem_of_map. eauto.
Qed.

(** C1 (as the code has it): in a routine list with distinct ids, the
    occurrence derived from a routine [r] is in the merged feed exactly when
    [r] is enabled and due on the day (daily, or weekly with the day's
    weekday among its weekdays); the day's completion set plays no part, the
    feed being the same whatever the completion log holds. *)
Theorem routine_occurrence_in_feed (c : Clock) (st : Store) (r : Routine) :
  NoDup (map r_id (getRoutines st)) →
  r ∈ getRoutines st →
  (routineItem (getTodayString c) r ∈ sortedItems c st
   ↔ enabled r = true
     ∧ (frequency r = "daily"
        ∨ (frequency r = "weekly" ∧ getDay c (now c) ∈ weekdays r)))
  ∧ ∀ log, sortedItems c
             {| deadline_schedules := deadline_schedules st;
                deadline_routines := deadline_routines st;
                deadline_todos := deadline_todos st;
                deadline_routine_checks := log |}
           = sortedItems c st.
Proof.
  intros Hnd Hr. split; [|reflexivity].
  rewrite elem_of_sortedItems. split.
  - intros [Hs | Hrt].
    + apply elem_of_map in Hs as (s & Hs & _). discriminate Hs.
    + apply elem_of_map in Hrt as (r' & Heq & Hdue).
      apply elem_of_dueRoutines in Hdue as (Hr' & Hen & Hd).
      apply routineItem_inj in Heq as [Hid _].
      by rewrite (same_id_same_routine _ r r' Hnd Hr Hr' Hid).
  - intros [Hen Hd]. right. apply elem_of_map. exists r.
    split; [done|]. by apply elem_of_dueRoutines.
Qed.

(** ** The visibility window *)

(** C5: a schedule is in the rendered list exactly when it is stored and its
    [daysRemaining] is at least -14; the three counts are taken over the
    schedules within that window only, so one overdue by more than 14 days is
    in no count; and drawing the dashboard leaves the store as it was. *)
Theorem visibility_window (c : Clock) (st : Store) (s : Schedule) :
  let days := λ x, getDaysRemaining c (s_date x) in
  let counts := stats (dashboard c st) in
  (of_schedule s ∈ shownItems (dashboard c st)
   ↔ s ∈ getSchedules st ∧ days s >= -14)
  ∧ totalCount counts
    = length (filter (λ x, days x >= -14) (getSchedules st))
  ∧ urgentCount counts
    = length (filter (λ x, (days x >= 0 ∧ days x <= 3) ∧ days x >= -14)
                (getSchedules st))
  ∧ overdueCount counts
    = length (filter (λ x, (days x < 0 ∧ days x >= -14) ∧ days x >= -14)
                (getSchedules st))
  ∧ (updateDashboard c st).1 = st.
Proof.
  intros days counts.
  split; [|split; [|split; [|split; [|reflexivity]]]].
  - rewrite shownItems_dashboard, elem_of_sortedItems. split.
    + intros [Hs | Hr].
      * apply elem_of_map in Hs as (s' & Heq & Hs').
        apply of_schedule_inj in Heq as ->.
        apply list_elem_of_filter in Hs'. tauto.
      * apply elem_of_map in Hr as (r & Hr & _). discriminate Hr.
    + intros [Hin Hd]. left. apply elem_of_map. exists s. split; [done|].
      by apply list_elem_of_filter.
  - reflexivity.
  - unfold counts, dashboard, updateDashboard, updateStats, recentSchedules.
    simpl. by rewrite list_filter_filter.
  - unfold counts, dashboard, updateDashboard, updateStats, recentSchedules.
    simpl. by rewrite list_filter_filter.
Qed.

(** ** The summary counts *)

Lemma cardClass_today (c : Clock) (it : Item) :
  getDaysRemaining c (date it) = 0 →
  cardClass (renderCard c it) = "schedule-card today".
Proof. unfold renderCard. intros ->. reflexivity. Qed.

(** C2 (as the code has it): the urgent count is the number of visible
    schedules with [0 <= daysRemaining <= 3]; a visible schedule due today is
    among those counted, although its card and its countdown are classified
    today, not urgent. *)
Theorem urgent_count_includes_today (c : Clock) (st : Store) :
  let days := λ x, getDaysRemaining c (s_date x) in
  let counted :=
    filter (λ x, 0 <= days x ∧ days x <= 3) (recentSchedules c st) in
  urgentCount (stats (dashboard c st)) = length counted
  ∧ ∀ s, s ∈ recentSchedules c st → days s = 0 →
         s ∈ counted
         ∧ cardClass (renderCard c (of_schedule s)) = "schedule-card today"
         ∧ bucketNew (days s) = Some today.
Proof.
  intros days counted. split.
  - unfold dashboard, updateDashboard, updateStats. simpl. f_equal.
    apply list_filter_iff. intros x. simpl. unfold days. lia.
  - intros s Hs Hd. split; [|split].
    + apply list_elem_of_filter. split; [lia | done].
    + by apply cardClass_today.
    + rewrite Hd. reflexivity.
Qed.

(** ** Ordering of the feed *)

Lemma precedes_total {A} (a b : A) (l : list A) :
  a ∈ l → b ∈ l → a ≠ b → precedes a b l ∨ precedes b a l.
Proof.
  intros Ha Hb Hne.
  apply list_elem_of_split in Ha as (l1 & l2 & ->).
  apply elem_of_app in Hb as [Hb | Hb].
  - right. apply list_elem_of_split in Hb as (m1 & m2 & ->).
    exists m1, m2, l2. by rewrite <- app_assoc.
  - apply elem_of_cons in Hb as [-> | Hb]; [done|].
    left. apply list_elem_of_split in Hb as (m1 & m2 & ->).
    by exists l1, m1, m2.
Qed.

Lemma routine_never_before_schedule (c : Clock) (st : Store) (a b : Item) :
  isRoutine a = true → isRoutine b = false →
  getDaysRemaining c (date a) = getDaysRemaining c (date b) →
  ¬ precedes a b (sortedItems c st).
Proof.
  intros Ha Hb Hd Hp.
  apply (sort_stable (λ x, getDaysRemaining c (date x))) in Hp; [|done].
  unfold allItems in Hp. rewrite filter_app in Hp.
  apply precedes_app in Hp as [Hin | Hin];
    apply list_elem_of_filter in Hin as [_ Hin].
  - pose proof (schedules_not_routine c st) as HF.
    rewrite Forall_forall in HF. specialize (HF _ Hin). congruence.
  - pose proof (todayRoutines_routine c st) as HF.
    rewrite Forall_forall in HF. specialize (HF _ Hin) as [? _]. congruence.
Qed.

(** C6: the feed is the concatenation of the visible schedules and today's
    routine occurrences, reordered so that [daysRemaining] ascends; of two
    feed items with equal [daysRemaining], one a schedule and one a routine
    occurrence, the schedule comes first, and a routine occurrence is never
    placed before a schedule of the same [daysRemaining]. *)
Theorem feed_order (c : Clock) (st : Store) :
  let days := λ x, getDaysRemaining c (date x) in
  let feed := sortedItems c st in
  StronglySorted (λ a b, days a <= days b) feed
  ∧ feed ≡ₚ map of_schedule (validSchedules c st) ++ todayRoutines c st
  ∧ (∀ a b, a ∈ feed → b ∈ feed →
            isRoutine a = false → isRoutine b = true → days a = days b →
            precedes a b feed)
  ∧ (∀ a b, isRoutine a = true → isRoutine b = false → days a = days b →
            ¬ precedes a b feed).
Proof.
  intros days feed. split; [|split; [|split]].
  - apply (sort_sorted days).
  - apply sortedItems_Permutation.
  - intros a b Ha Hb Hsa Hrb Hd.
    destruct (precedes_total a b feed Ha Hb) as [Hp | Hp]; [congruence|done|].
    exfalso. by apply (routine_never_before_schedule c st b a).
  - intros a b Hra Hsb Hd. by apply routine_never_before_schedule.
Qed.

(** ** The to-do section *)

(** C10: the to-do section of the dashboard shows the first ten of the
    stored to-dos that are not completed, in stored order: every item shown
    is an incomplete stored to-do, at most ten are shown, and the item at
    position ten or later of the incomplete ones is not shown. *)
Theorem dashboard_todos (c : Clock) (st : Store) :
  let incomplete := filter (λ t, negb (completed t)) (getTodos st) in
  let shown := shownTodos (dashboard c st) in
  shown = take 10 incomplete
  ∧ (∀ t, t ∈ shown → completed t = false ∧ t ∈ getTodos st)
  ∧ (length shown <= 10)%nat
  ∧ (∀ i : nat, shown !! i
                = if decide (i < 10)%nat then incomplete !! i else None).
Proof.
  intros incomplete shown.
  assert (shown = take 10 incomplete) as Hshown.
  { unfold shown, dashboard, updateDashboard, renderScheduleList, shownTodos,
      renderDashboardTodos. simpl. fold incomplete.
    repeat case_decide; simpl; try done.
    - symmetry. apply nil_length_inv. tauto.
    - symmetry. by apply nil_length_inv. }
  split; [done|]. rewrite Hshown. split; [|split].
  - intros t (i & Hi & _)%elem_of_take.
    apply list_elem_of_lookup_2 in Hi.
    apply list_elem_of_filter in Hi as [Hc Hin].
    split; [|done]. by destruct (completed t).
  - rewrite length_take. lia.
  - intros i. apply lookup_take.
Qed.

(** ** The completion log *)

Lemma parsedChecks_save (c : Clock) (ids : list string) (st : Store) :
  parsedChecks (saveRoutineChecks c ids st)
  = <[getTodayString c := ids]>
      (filter (λ kv, negb (expired (setDateBack 7 (now c)) kv.1))
         (parsedChecks st)).
Proof. reflexivity. Qed.

Lemma lookup_save_today (c : Clock) (ids : list string) (st : Store) :
  parsedChecks (saveRoutineChecks c ids st) !! getTodayString c = Some ids.
Proof. rewrite parsedChecks_save. apply lookup_insert_eq. Qed.

Lemma lookup_save_other (c : Clock) (ids : list string) (st : Store)
    (k : Z) :
  k ≠ getTodayString c →
  parsedChecks (saveRoutineChecks c ids st) !! k
  = if decide (utcMidnight k < now c - 7 * MS_PER_DAY) then None
    else parsedChecks st !! k.
Proof.
  intros Hk. rewrite parsedChecks_save, lookup_insert_ne by done.
  unfold expired, setDateBack. case_decide as Hexp.
  - apply map_lookup_filter_None. right. intros x _. simpl.
    rewrite bool_decide_eq_true_2 by done. simpl. tauto.
  - destruct (parsedChecks st !! k) as [x|] eqn:Hx.
    + apply map_lookup_filter_Some. split; [done|]. simpl.
      by rewrite bool_decide_eq_false_2.
    + apply map_lookup_filter_None. by left.
Qed.

Lemma getRoutineChecks_save (c c' : Clock) (ids : list string) (st : Store) :
  getTodayString c' = getTodayString c →
  getRoutineChecks c' (saveRoutineChecks c ids st) = ids.
Proof.
  intros Heq. unfold getRoutineChecks. simpl.
  by rewrite Heq, lookup_save_today.
Qed.



(** ** Toggling a completion *)

Lemma indexOf_absent (x : string) (l : list string) :
  x ∉ l → indexOf x l = -1.
Proof.
  induction l as [|y l IH]; simpl; [done|].
  rewrite not_elem_of_cons. intros [Hne Hl].
  rewrite decide_False by done. rewrite IH by done. reflexivity.
Qed.

Lemma indexOf_first (x : string) (l1 l2 : list string) :
  x ∉ l1 → indexOf x (l1 ++ x :: l2) = Z.of_nat (length l1).
Proof.
  induction l1 as [|y l1 IH]; simpl.
  - intros _. by rewrite decide_True.
  - rewrite not_elem_of_cons. intros [Hne Hl].
    rewrite decide_False by done. rewrite IH by done.
    rewrite decide_False by lia. lia.
Qed.

Lemma toggled_absent (x : string) (l : list string) :
  x ∉ l → toggled x l = l ++ [x].
Proof. intros H. unfold toggled. by rewrite indexOf_absent. Qed.

Lemma toggled_present (x : string) (l1 l2 : list string) :
  x ∉ l1 → toggled x (l1 ++ x :: l2) = l1 ++ l2.
Proof.
  intros H. unfold toggled, splice1. rewrite indexOf_first by done.
  rewrite decide_False by lia. rewrite Nat2Z.id.
  induction l1 as [|y l1 IH]; simpl; [done|].
  f_equal. apply IH. by apply not_elem_of_cons in H as [_ ?].
Qed.

(** On a list without repetition a toggle flips the membership of its id
    and of no other. *)
Lemma toggled_elem_of (x y : string) (l : list string) :
  NoDup l →
  NoDup (toggled x l)
  ∧ (y ∈ toggled x l ↔ (y = x ∧ x ∉ l) ∨ (y ≠ x ∧ y ∈ l)).
Proof.
  intros Hnd. destruct (decide (x ∈ l)) as [Hin|Hnin].
  - apply list_elem_of_split_l in Hin as (l1 & l2 & -> & Hl1).
    rewrite toggled_present by done.
    apply NoDup_app in Hnd as (Hnd1 & Hdisj & Hnd2).
    apply NoDup_cons in Hnd2 as [Hl2 Hnd2].
    split.
    + apply NoDup_app. split; [done|]. split; [|done].
      intros z Hz1 Hz2. apply (Hdisj z Hz1). by right.
    + rewrite !elem_of_app, !elem_of_cons.
      destruct (decide (y = x)) as [->|Hne]; intuition congruence.
  - rewrite toggled_absent by done. split.
    + apply NoDup_app. split; [done|]. split; [|apply NoDup_singleton].
      intros z Hz ->%list_elem_of_singleton. done.
    + rewrite elem_of_app, list_elem_of_singleton.
      destruct (decide (y = x)) as [->|Hne]; intuition congruence.
Qed.

Lemma getRoutineChecks_toggle (c c' : Clock) (x : string) (st : Store) :
  getTodayString c' = getTodayString c →
  getRoutineChecks c' (toggle c x st) = toggled x (getRoutineChecks c st).
Proof. intros Heq. by apply getRoutineChecks_save. Qed.

(** C7 (as the code has it): when the day's list of completed ids has no
    repetition, a toggle flips the membership of its id in the day's
    completion set and of no other id, and a second toggle of the same id on
    the same day gives back the day's original completion set. *)
Theorem toggle_twice (c1 c2 : Clock) (x : string) (st : Store) :
  getTodayString c2 = getTodayString c1 →
  NoDup (getRoutineChecks c1 st) →
  let before := getRoutineChecks c1 st in
  let once := getRoutineChecks c2 (toggle c1 x st) in
  let twice := getRoutineChecks c2 (toggle c2 x (toggle c1 x st)) in
  (x ∈ once ↔ x ∉ before)
  ∧ (∀ y, y ≠ x → (y ∈ once ↔ y ∈ before))
  ∧ (∀ y, y ∈ twice ↔ y ∈ before)
  ∧ NoDup twice.
Proof.
  intros Hday Hnd before once twice.
  assert (once = toggled x before) as Honce
    by by apply getRoutineChecks_toggle.
  assert (twice = toggled x once) as Htwice
    by by apply getRoutineChecks_toggle.
  assert (NoDup once) as Hnd1 by (rewrite Honce; by apply toggled_elem_of).
  split; [|split; [|split]].
  - rewrite Honce.
    rewrite (proj2 (toggled_elem_of x x before Hnd)). intuition.
  - intros y Hy. rewrite Honce.
    rewrite (proj2 (toggled_elem_of x y before Hnd)). intuition.
  - intros y. rewrite Htwice.
    rewrite (proj2 (toggled_elem_of x y once Hnd1)).
    rewrite Honce.
    rewrite !(proj2 (toggled_elem_of x _ before Hnd)).
    destruct (decide (y = x)) as [->|Hne];
      destruct (decide (x ∈ before)); intuition.
  - rewrite Htwice. by apply toggled_elem_of.
Qed.

(** ** The properties at the sample data *)

Lemma noon_today : getTodayString noon = 0.
Proof. reflexivity. Qed.


(** The routine [jog] is enabled, daily and checked off today, and its
    occurrence is in the feed all the same. *)
Lemma checked_off_routine_in_feed :
  ¬ (routineItem (getTodayString noon) jog ∈ sortedItems noon store_checked
     ↔ enabled jog = true
       ∧ (frequency jog = "daily"
          ∨ (frequency jog = "weekly"
             ∧ getDay noon (now noon) ∈ weekdays jog))
       ∧ r_id jog ∉ getRoutineChecks noon store_checked).
Proof.
  intros [Hfeed _].
  assert (routineItem (getTodayString noon) jog
          ∈ sortedItems noon store_checked) as Hin.
  { change (sortedItems noon store_checked)
      with [routineItem (getTodayString noon) jog]. apply list_elem_of_here. }
  destruct (Hfeed Hin) as (_ & _ & Hnot). apply Hnot.
  change (getRoutineChecks noon store_checked) with ["r1"].
  apply list_elem_of_here.
Qed.

Lemma routine_occurrence_in_feed_witness :
  routineItem (getTodayString noon) jog ∈ sortedItems noon store_checked
  ↔ enabled jog = true
    ∧ (frequency jog = "daily"
       ∨ (frequency jog = "weekly" ∧ getDay noon (now noon) ∈ weekdays jog)).
Proof.
  apply (routine_occurrence_in_feed noon store_checked jog).
  - simpl. apply NoDup_singleton.
  - simpl. apply list_elem_of_here.
Defined.

(** A schedule due today is counted as urgent, so the urgent count is not
    the number of visible schedules with [0 < daysRemaining <= 3]. *)
Lemma due_today_counted_urgent :
  getDaysRemaining noon (s_date (report 0)) = 0
  ∧ urgentCount (stats (dashboard noon store_due_today)) = 1%nat
  ∧ urgentCount (stats (dashboard noon store_due_today))
    ≠ length (filter (λ x, 0 < getDaysRemaining noon (s_date x)
                           ∧ getDaysRemaining noon (s_date x) <= 3)
                (recentSchedules noon store_due_today)).
Proof.
  split; [reflexivity|]. split; [reflexivity|].
  vm_compute. discriminate.
Qed.


(** At 23:00 in a zone five hours west of UTC the key dated six days before
    today is removed as well, although the loop is commented as removing
    what is seven days old or older: the key is read as a UTC date, where
    the other dates of the file are read as local ones. *)
Lemma six_day_old_key_removed_west :
  let late := {| now := 28 * 3600000; tz := - 5 * 3600000 |} in
  let st := store_with [] [] {[-6 := ["r1"]]} in
  getTodayString late = 0
  ∧ parsedChecks st !! (getTodayString late - 6) = Some ["r1"]
  ∧ parsedChecks (saveRoutineChecks late [] st) !! (getTodayString late - 6)
    = None.
Proof. repeat split; vm_compute; reflexivity. Qed.


(** Two toggles prune the entry dated ten days back: the log is not what it
    was. *)
Lemma toggle_twice_changes_log :
  deadline_routine_checks (toggle noon "r1" (toggle noon "r1" store_old_entry))
  ≠ deadline_routine_checks store_old_entry.
Proof.
  intros Heq.
  apply (f_equal (λ o, o ≫= (λ m : gmap Z (list string), m !! (-10)))) in Heq.
  vm_compute in Heq. discriminate Heq.
Qed.

Lemma toggle_twice_witness :
  "r1" ∈ getRoutineChecks noon
           (toggle noon "r1" (toggle noon "r1" store_checked))
  ↔ "r1" ∈ getRoutineChecks noon store_checked.
Proof.
  assert (getTodayString noon = getTodayString noon) as Hday by reflexivity.
  assert (NoDup (getRoutineChecks noon store_checked)) as Hnd.
  { change (getRoutineChecks noon store_checked) with ["r1"].
    apply NoDup_singleton. }
  exact (proj1 (proj2 (proj2
           (toggle_twice noon noon "r1" store_checked Hday Hnd))) "r1").
Defined.

(** * Properties of [sw.js] *)

Import SW.

Lemma fetch_all_inr (pf : Platform) (urls : list string)
    (rs : list (string * Response)) :
  fetch_all pf urls = inr rs →
  map fst rs = urls ∧ ∀ u r, (u, r) ∈ rs → fetch_ok pf u = inr r.
Proof.
  revert rs. induction urls as [|u urls IH]; simpl; intros rs Hrs.
  - injection Hrs as <-. split; [done|]. intros u r H. by apply elem_of_nil in H.
  - destruct (fetch_ok pf u) as [e|r0] eqn:Hu; [discriminate|].
    destruct (fetch_all pf urls) as [e|rs'] eqn:Hrest; [discriminate|].
    injection Hrs as <-. destruct (IH rs' eq_refl) as [Hfst Hall].
    split; [simpl; by rewrite Hfst|].
    intros u' r' [Heq | Hin]%elem_of_cons; [congruence | by apply Hall].
Qed.

Lemma fetch_all_inl (pf : Platform) (urls : list string) (e : Failure) :
  fetch_all pf urls = inl e → ∃ u, u ∈ urls ∧ fetch_ok pf u = inl e.
Proof.
  induction urls as [|u urls IH]; simpl; [discriminate|].
  destruct (fetch_ok pf u) as [e0|r0] eqn:Hu.
  - intros [= <-]. exists u. split; [apply list_elem_of_here | done].
  - destruct (fetch_all pf urls) as [e1|rs'] eqn:Hrest; [|discriminate].
    intros [= <-]. destruct (IH eq_refl) as (u' & Hin & Hf).
    exists u'. split; [by apply list_elem_of_further | done].
Qed.

Lemma fetch_all_fails (pf : Platform) (urls : list string) (u : string)
    (e : Failure) :
  u ∈ urls → fetch_ok pf u = inl e → ∃ e', fetch_all pf urls = inl e'.
Proof.
  induction urls as [|v urls IH]; simpl; intros Hin Hf.
  - by apply elem_of_nil in Hin.
  - destruct (fetch_ok pf v) as [e0|r0] eqn:Hv; [eauto|].
    apply elem_of_cons in Hin as [-> | Hin]; [congruence|].
    destruct (IH Hin Hf) as [e' ->]. eauto.
Qed.

(** Writing the fetched entries: each written key reads back the response
    fetched for it. *)
Lemma lookup_kept (rs : list (string * Response))
    (m : gmap string Response) (u : string) (r : Response) :
  m !! u = Some r → (∀ r', (u, r') ∈ rs → r' = r) →
  foldl (λ (m : gmap string Response) ur, <[ur.1 := ur.2]> m) m rs !! u
  = Some r.
Proof.
  revert m. induction rs as [|[u0 r0] rs IH]; simpl; intros m Hm Hfun; [done|].
  apply IH; [|intros r' Hr'; apply Hfun; by right].
  destruct (decide (u0 = u)) as [->|Hne].
  - rewrite lookup_insert_eq. f_equal. apply Hfun. by left.
  - by rewrite lookup_insert_ne.
Qed.

Lemma lookup_written (pf : Platform) (rs : list (string * Response))
    (m : gmap string Response) (u : string) (r : Response) :
  (∀ u' r', (u', r') ∈ rs → fetch_ok pf u' = inr r') →
  (u, r) ∈ rs →
  foldl (λ (m : gmap string Response) ur, <[ur.1 := ur.2]> m) m rs !! u
  = Some r.
Proof.
  revert m. induction rs as [|[u0 r0] rs IH]; simpl; intros m Hall Hin.
  - by apply elem_of_nil in Hin.
  - assert (∀ u' r', (u', r') ∈ rs → fetch_ok pf u' = inr r') as Hall'
      by (intros; apply Hall; by right).
    apply elem_of_cons in Hin as [[= -> ->] | Hin]; [|by apply IH].
    apply lookup_kept; [apply lookup_insert_eq|].
    intros r' Hr'. apply Hall' in Hr'.
    assert (fetch_ok pf u0 = inr r0) by (apply Hall; by left). congruence.
Qed.

Lemma forallb_false_ex {A} (f : A → bool) (l : list A) :
  forallb f l = false → ∃ x, x ∈ l ∧ f x = false.
Proof.
  induction l as [|y l IH]; simpl; [discriminate|].
  destruct (f y) eqn:Hy; simpl.
  - intros (x & Hx & Hf)%IH. exists x. split; [by right | done].
  - intros _. exists y. split; [by left | done].
Qed.

Lemma addAll_spec (pf : Platform) (cache : string) (urls : list string)
    (s : State) :
  match addAll pf cache urls s with
  | (inr _, s') =>
      (∀ u, u ∈ urls →
            can_store pf cache u = true
            ∧ ∃ r, fetch_ok pf u = inr r
                   ∧ caches s' !! cache ≫= (λ m, m !! u) = Some r)
      ∧ skippedWaiting s' = skippedWaiting s
  | (inl e, s') =>
      s' = s
      ∧ ((∃ u, u ∈ urls ∧ fetch_ok pf u = inl e)
         ∨ (e = StorageError cache
            ∧ ∃ u, u ∈ urls ∧ can_store pf cache u = false))
  end.
Proof.
  unfold addAll. destruct (fetch_all pf urls) as [e|rs] eqn:Hfetch.
  - split; [done|]. left. by apply fetch_all_inl.
  - apply fetch_all_inr in Hfetch as [Hfst Hall].
    destruct (forallb _ rs) eqn:Hstore.
    + split; [|done]. intros u Hu.
      rewrite <- Hfst in Hu. apply elem_of_map in Hu as ([u' r] & -> & Hin).
      simpl. rewrite forallb_forall in Hstore.
      pose proof (Hall _ _ Hin) as Hr.
      split.
      { apply (Hstore (u', r)). by apply list_elem_of_In. }
      exists r. split; [done|].
      rewrite lookup_insert_eq. simpl. by eapply lookup_written.
    + split; [done|]. right. split; [done|].
      apply forallb_false_ex in Hstore as ([u r] & Hin & Hf).
      exists u. split; [|done]. rewrite <- Hfst.
      apply elem_of_map. by exists (u, r).
Qed.

Lemma install_spec (pf : Platform) (s : State) :
  match install pf s with
  | (inr _, s') =>
      (∀ url, url ∈ ASSETS_TO_CACHE →
              can_store pf CACHE_NAME url = true
              ∧ ∃ r, fetch_ok pf url = inr r ∧ cached s' url = Some r)
      ∧ skippedWaiting s' = true
  | (inl e, s') =>
      underlying pf e
      ∧ skippedWaiting s' = skippedWaiting s
      ∧ ∀ url, cached s' url = cached s url
  end.
Proof.
  unfold install, andThen at 1 2, caches_open.
  destruct (can_open pf CACHE_NAME) eqn:Hopen.
  - unfold andThen, console_log.
    match goal with
    | |- context [addAll pf CACHE_NAME ASSETS_TO_CACHE ?s0] =>
        pose proof (addAll_spec pf CACHE_NAME ASSETS_TO_CACHE s0) as Hadd;
        destruct (addAll pf CACHE_NAME ASSETS_TO_CACHE s0) as [[e|[]] s']
    end.
    + destruct Hadd as [-> Hwhy]. simpl. split; [|split; [done|]].
      * destruct Hwhy as [Hf | [-> Hst]]; [by left | right; eauto].
      * intros url. unfold cached. simpl.
        destruct (caches s !! CACHE_NAME) eqn:Hc.
        -- by rewrite Hc.
        -- by rewrite lookup_insert_eq.
    + destruct Hadd as [Hall Hskip]. simpl. split; [|done].
      intros url Hurl. apply Hall in Hurl as (Hst & r & Hr & Hc).
      split; [done|]. exists r. split; done.
  - simpl. split; [|done]. right. split; [done|]. by left.
Qed.

(** C9: the install step succeeds only with every asset of the manifest
    fetched and stored in the versioned cache; when it fails the failure is
    one raised by fetching or storing (an asset of the manifest, or opening
    the cache), waiting is not skipped and the versioned cache holds what it
    held; and when the fetch or the storing of any one asset fails, the
    install step does not succeed. *)
Theorem install_all_or_nothing (pf : Platform) (s : State) :
  match install pf s with
  | (inr _, s') =>
      (∀ url, url ∈ ASSETS_TO_CACHE →
              ∃ r, fetch_ok pf url = inr r ∧ cached s' url = Some r)
      ∧ skippedWaiting s' = true
  | (inl e, s') =>
      underlying pf e
      ∧ skippedWaiting s' = skippedWaiting s
      ∧ ∀ url, cached s' url = cached s url
  end
  ∧ (∀ url, url ∈ ASSETS_TO_CACHE → asset_fails pf url →
            installed pf s = false).
Proof.
  pose proof (install_spec pf s) as Hspec. unfold installed.
  destruct (install pf s) as [[e|[]] s'].
  - split; [exact Hspec | done].
  - destruct Hspec as [Hall Hskip]. split.
    + split; [|done]. intros url Hurl.
      by destruct (Hall url Hurl) as [_ ?].
    + intros url Hurl Hfail. exfalso.
      destruct (Hall url Hurl) as (Hst & r & Hr & _).
      destruct Hfail as [[e He] | Hno]; congruence.
Qed.

(** With the cache opening and no asset failing, the step does succeed. *)
Lemma install_succeeds (pf : Platform) (s : State) :
  can_open pf CACHE_NAME = true →
  (∀ url, url ∈ ASSETS_TO_CACHE → ¬ asset_fails pf url) →
  installed pf s = true.
Proof.
  intros Hopen Hok. pose proof (install_spec pf s) as Hspec.
  unfold installed. destruct (install pf s) as [[e|[]] s']; [|done].
  exfalso. destruct Hspec as [[(url & Hurl & Hf) | (-> & [Hno | Hst])] _].
  - apply (Hok url Hurl). left. eauto.
  - congruence.
  - destruct Hst as (url & Hurl & Hst). apply (Hok url Hurl). by right.
Qed.

Example install_online :
  installed online fresh = true
  ∧ cached (install online fresh).2 "/app.js" = Some (page "/app.js").
Proof. split; vm_compute; reflexivity. Qed.

Example install_app_js_unreachable :
  (install app_js_unreachable fresh).1 = inl (NetworkError "/app.js")
  ∧ installed app_js_unreachable fresh = false
  ∧ cached (install app_js_unreachable fresh).2 "/" = None.
Proof. repeat split; vm_compute; reflexivity. Qed.

(** * Properties of the editing operations *)

Import Ops.

(** ** Finding and replacing by id *)

Lemma findIndex_range {A} (p : A → bool) (l : list A) :
  findIndex p l = -1 ∨ 0 <= findIndex p l < Z.of_nat (length l).
Proof.
  induction l as [|x l IH]; simpl; [by left|].
  destruct (p x); [right; lia|].
  case_decide; [by left | right; lia].
Qed.

Lemma findIndex_none {A} (p : A → bool) (l : list A) :
  findIndex p l = -1 ↔ ∀ x, x ∈ l → p x = false.
Proof.
  induction l as [|x l IH]; simpl.
  - split; [|done]. intros _ y Hy. by apply elem_of_nil in Hy.
  - destruct (p x) eqn:Hx.
    + split; [lia|]. intros H. specialize (H x (list_elem_of_here _ _)).
      congruence.
    + pose proof (findIndex_range p l) as Hr.
      case_decide as Hi.
      * split; [|done]. intros _ y [->|Hy]%elem_of_cons; [done|].
        by apply IH.
      * split; [lia|]. intros H. exfalso. apply Hi, IH.
        intros y Hy. apply H. by right.
Qed.

(** Replacing at the found position, in a list whose keys are distinct, is
    replacing every element of that key. *)
Lemma alter_found {A} (key : A → string) (k : string) (f : A → A)
    (l : list A) :
  NoDup (map key l) →
  (let index := findIndex (λ x, bool_decide (key x = k)) l in
   if decide (index ≠ -1) then alter f (Z.to_nat index) l else l)
  = map (λ x, if bool_decide (key x = k) then f x else x) l.
Proof.
  simpl. induction l as [|x l IH]; simpl; intros Hnd; [done|].
  apply NoDup_cons in Hnd as [Hx Hnd]. specialize (IH Hnd).
  case_bool_decide as Hk; simpl.
  - f_equal. symmetry. erewrite map_ext_in; [apply map_id|].
    intros y Hy. simpl. rewrite bool_decide_eq_false_2; [done|].
    intros Hyk. apply Hx. rewrite Hk, <- Hyk. apply elem_of_map.
    exists y. split; [done|]. by apply list_elem_of_In.
  - pose proof (findIndex_range (λ x, bool_decide (key x = k)) l) as Hr.
    set (i := findIndex (λ x, bool_decide (key x = k)) l) in *.
    destruct (decide (i = -1)) as [Hi|Hi].
    + rewrite decide_False by lia. rewrite decide_False in IH by lia.
      by rewrite <- IH.
    + rewrite decide_True by lia. rewrite decide_True in IH by lia.
      replace (Z.to_nat (i + 1)) with (S (Z.to_nat i)) by lia.
      simpl. by rewrite <- IH.
Qed.

Lemma findIndex_cons {A} (p : A → bool) (x : A) (l : list A) :
  findIndex p (x :: l)
  = if p x then 0
    else if decide (findIndex p l = -1) then -1 else findIndex p l + 1.
Proof. reflexivity. Qed.

(** Replacing at the found position by an element of the same key leaves
    the found position where it was. *)
Lemma findIndex_alter {A} (key : A → string) (k : string) (f : A → A)
    (i : nat) (l : list A) :
  (∀ x, key (f x) = key x) →
  findIndex (λ x, bool_decide (key x = k)) (alter f i l)
  = findIndex (λ x, bool_decide (key x = k)) l.
Proof.
  intros Hf. revert i. induction l as [|x l IH]; intros [|i]; try done.
  - change (alter f 0%nat (x :: l)) with (f x :: l).
    rewrite !findIndex_cons. by rewrite Hf.
  - change (alter f (S i) (x :: l)) with (x :: alter f i l).
    rewrite !findIndex_cons. by rewrite IH.
Qed.

Lemma alter_alter_id {A} (f : A → A) (i : nat) (l : list A) :
  (∀ x, f (f x) = x) → alter f i (alter f i l) = l.
Proof.
  intros Hf. revert i.
  induction l as [|x l IH]; intros [|i]; f_equal/=; auto.
Qed.

Lemma flipEnabled_involutive (r : Routine) : flipEnabled (flipEnabled r) = r.
Proof. destruct r. unfold flipEnabled. simpl. by rewrite negb_involutive. Qed.

Lemma flipCompleted_involutive (t : Todo) :
  flipCompleted (flipCompleted t) = t.
Proof. destruct t. unfold flipCompleted. simpl. by rewrite negb_involutive. Qed.

(** ** Enabling and disabling a routine *)

Lemma getRoutines_saveRoutines (l : list Routine) (st : Store) :
  getRoutines (saveRoutines l st) = l.
Proof. reflexivity. Qed.

(** X2: switching a routine off and on again (or on and off) leaves the
    store exactly as it was, and so does a switch of an id that is not
    stored. *)
Theorem toggleRoutine_twice (id0 : string) (st : Store) :
  toggleRoutine id0 (toggleRoutine id0 st) = st
  ∧ ((∀ r, r ∈ getRoutines st → r_id r ≠ id0) → toggleRoutine id0 st = st).
Proof.
  split.
  - unfold toggleRoutine at 2.
    set (l := getRoutines st).
    set (i := findIndex (λ r, bool_decide (r_id r = id0)) l).
    destruct (decide (i ≠ -1)) as [Hi|Hi].
    + unfold toggleRoutine. rewrite getRoutines_saveRoutines.
      rewrite (findIndex_alter r_id) by done. fold i.
      rewrite decide_True by done.
      rewrite alter_alter_id by apply flipEnabled_involutive.
      subst i l. destruct st as [? [rs|] ? ?]; [done | by destruct Hi].
    + unfold toggleRoutine. fold l i. by rewrite decide_False.
  - intros Hnone. unfold toggleRoutine.
    rewrite decide_False; [done|]. intros Hi. apply Hi.
    apply findIndex_none. intros r Hr.
    apply bool_decide_eq_false_2. by apply Hnone.
Qed.

Lemma occurrence_in_feed (c : Clock) (st : Store) (r : Routine) :
  NoDup (map r_id (getRoutines st)) → r ∈ getRoutines st →
  routineItem (getTodayString c) r ∈ sortedItems c st
  ↔ enabled r = true ∧ isDue (getDay c (now c)) r.
Proof.
  intros Hnd Hr. rewrite elem_of_sortedItems. split.
  - intros [Hs | Hrt].
    + apply elem_of_map in Hs as (s & Hs & _). discriminate Hs.
    + apply elem_of_map in Hrt as (r' & Heq & Hdue).
      apply elem_of_dueRoutines in Hdue as (Hr' & Hen & Hd).
      apply routineItem_inj in Heq as [Hid _].
      by rewrite (same_id_same_routine _ r r' Hnd Hr Hr' Hid).
  - intros [Hen Hd]. right. apply elem_of_map. exists r.
    split; [done|]. by apply elem_of_dueRoutines.
Qed.

Lemma getRoutines_toggleRoutine (id0 : string) (st : Store) :
  NoDup (map r_id (getRoutines st)) →
  getRoutines (toggleRoutine id0 st)
  = map (λ x, if bool_decide (r_id x = id0) then flipEnabled x else x)
      (getRoutines st).
Proof.
  intros Hnd. rewrite <- (alter_found r_id id0 flipEnabled) by done.
  unfold toggleRoutine. simpl. by case_decide.
Qed.

Lemma map_key_replace {A} (key : A → string) (k : string) (f : A → A)
    (l : list A) :
  (∀ x, key (f x) = key x) →
  map key (map (λ x, if bool_decide (key x = k) then f x else x) l)
  = map key l.
Proof.
  intros Hf. rewrite map_map. apply map_ext. intros x.
  by case_bool_decide.
Qed.

(** X3: in a routine list with distinct ids, after the switch of a routine
    its occurrence is in the dashboard feed exactly when the routine was
    disabled before and is due today; the occurrences of the routines of
    other ids are in the feed as before, and so are the schedules. *)
Theorem toggleRoutine_feed (c : Clock) (st : Store) (r : Routine) :
  NoDup (map r_id (getRoutines st)) →
  r ∈ getRoutines st →
  let st' := toggleRoutine (r_id r) st in
  let occurrence := routineItem (getTodayString c) in
  (occurrence r ∈ sortedItems c st'
   ↔ enabled r = false
     ∧ (frequency r = "daily"
        ∨ (frequency r = "weekly" ∧ getDay c (now c) ∈ weekdays r)))
  ∧ (∀ r', r' ∈ getRoutines st → r_id r' ≠ r_id r →
           (occurrence r' ∈ sortedItems c st'
            ↔ occurrence r' ∈ sortedItems c st))
  ∧ validSchedules c st' = validSchedules c st.
Proof.
  intros Hnd Hr st' occurrence.
  pose proof (getRoutines_toggleRoutine (r_id r) st Hnd) as Hl. fold st' in Hl.
  assert (NoDup (map r_id (getRoutines st'))) as Hnd'.
  { rewrite Hl, map_key_replace; done. }
  split; [|split].
  - unfold occurrence.
    change (routineItem (getTodayString c) r)
      with (routineItem (getTodayString c) (flipEnabled r)).
    rewrite occurrence_in_feed; [|done|].
    + unfold isDue. simpl. by rewrite negb_true_iff.
    + rewrite Hl. apply elem_of_map. exists r.
      by rewrite bool_decide_eq_true_2.
  - intros r' Hr' Hne. unfold occurrence.
    rewrite !occurrence_in_feed; [done|done|done|done|].
    rewrite Hl. apply elem_of_map. exists r'.
    by rewrite bool_decide_eq_false_2.
  - unfold st', toggleRoutine. by case_decide.
Qed.

Lemma toggleRoutine_feed_witness :
  routineItem (getTodayString noon) jog
    ∈ sortedItems noon (toggleRoutine (r_id jog) store_checked)
  ↔ enabled jog = false
    ∧ (frequency jog = "daily"
       ∨ (frequency jog = "weekly" ∧ getDay noon (now noon) ∈ weekdays jog)).
Proof.
  apply (toggleRoutine_feed noon store_checked jog).
  - simpl. apply NoDup_singleton.
  - simpl. apply list_elem_of_here.
Defined.

(** ** To-dos *)

Lemma getTodos_saveTodos (l : list Todo) (st : Store) :
  getTodos (saveTodos l st) = l.
Proof. reflexivity. Qed.

Lemma saveTodos_saveTodos (l l' : list Todo) (st : Store) :
  saveTodos l (saveTodos l' st) = saveTodos l st.
Proof. reflexivity. Qed.

Lemma shownTodos_take (c : Clock) (st : Store) :
  shownTodos (dashboard c st)
  = take 10 (filter (λ t, negb (completed t)) (getTodos st)).
Proof.
  unfold dashboard, updateDashboard, renderScheduleList, shownTodos,
    renderDashboardTodos. simpl.
  set (incomplete := filter (λ t, negb (completed t)) (getTodos st)).
  repeat case_decide; simpl; try done.
  - symmetry. apply nil_length_inv. tauto.
  - symmetry. by apply nil_length_inv.
Qed.

Lemma getTodos_toggleTodo (id0 : string) (st : Store) :
  NoDup (map t_id (getTodos st)) →
  getTodos (toggleTodo id0 st)
  = map (λ x, if bool_decide (t_id x = id0) then flipCompleted x else x)
      (getTodos st).
Proof.
  intros Hnd. rewrite <- (alter_found t_id id0 flipCompleted) by done.
  unfold toggleTodo. simpl. by case_decide.
Qed.

(** X4: ticking a to-do and ticking it again leaves the store exactly as it
    was; with distinct ids, one tick flips the to-do of that id and no
    other, and a to-do that was incomplete is, once ticked, no longer in the
    to-do section of the dashboard. *)
Theorem toggleTodo_effect (c : Clock) (id0 : string) (st : Store) :
  toggleTodo id0 (toggleTodo id0 st) = st
  ∧ (NoDup (map t_id (getTodos st)) →
     getTodos (toggleTodo id0 st)
     = map (λ x, if bool_decide (t_id x = id0) then flipCompleted x else x)
         (getTodos st)
     ∧ ((∀ t, t ∈ getTodos st → t_id t = id0 → completed t = false) →
        ∀ u, u ∈ shownTodos (dashboard c (toggleTodo id0 st)) →
             t_id u ≠ id0)).
Proof.
  split.
  - unfold toggleTodo at 2.
    set (l := getTodos st).
    set (i := findIndex (λ t, bool_decide (t_id t = id0)) l).
    destruct (decide (i ≠ -1)) as [Hi|Hi].
    + unfold toggleTodo. rewrite getTodos_saveTodos.
      rewrite (findIndex_alter t_id) by done. fold i.
      rewrite decide_True by done.
      rewrite alter_alter_id by apply flipCompleted_involutive.
      subst i l. destruct st as [? ? [ts|] ?]; [done | by destruct Hi].
    + unfold toggleTodo. fold l i. by rewrite decide_False.
  - intros Hnd. split; [by apply getTodos_toggleTodo|].
    intros Hinc u Hu Hid. rewrite shownTodos_take in Hu.
    apply elem_of_take in Hu as (i & Hi & _).
    apply list_elem_of_lookup_2, list_elem_of_filter in Hi as [Hc Hin].
    rewrite getTodos_toggleTodo in Hin by done.
    apply elem_of_map in Hin as (t & -> & Ht).
    case_bool_decide as Ht0.
    + simpl in Hc. rewrite (Hinc t Ht Ht0) in Hc. done.
    + done.
Qed.

Lemma take_snoc {A} (n : nat) (l : list A) (x : A) :
  take n (l ++ [x])
  = if decide (length l < n)%nat then take n l ++ [x] else take n l.
Proof.
  case_decide as Hn.
  - rewrite !take_ge by (rewrite ?length_app; simpl; lia). done.
  - by rewrite take_app_le by lia.
Qed.

Section todo_forms.
Variable trim : string → string.

(** X5: a to-do whose text is blank after trimming is not stored; another
    is stored last, incomplete, and is in the to-do section of the
    dashboard exactly when fewer than ten incomplete to-dos were stored
    before it, the section being otherwise as it was. *)
Theorem addTodo_dashboard (c : Clock) (newId nowIso value : string)
    (st : Store) :
  let st' := addTodo trim newId nowIso value st in
  let fresh := {| t_id := newId; t_text := trim value; completed := false;
                  createdAt := nowIso |} in
  let incomplete := filter (λ t, negb (completed t)) (getTodos st) in
  (trim value = "" → st' = st)
  ∧ (trim value ≠ "" →
     getTodos st' = getTodos st ++ [fresh]
     ∧ shownTodos (dashboard c st')
       = if decide (length incomplete < 10)%nat
         then shownTodos (dashboard c st) ++ [fresh]
         else shownTodos (dashboard c st)).
Proof.
  intros st' fresh incomplete. unfold st', addTodo. split.
  - intros ->. done.
  - intros Hne. rewrite decide_False by done.
    rewrite getTodos_saveTodos. split; [done|].
    rewrite !shownTodos_take, getTodos_saveTodos.
    rewrite filter_app, filter_cons_True, filter_nil by done.
    apply take_snoc.
Qed.

(** X6: deleting a to-do removes every to-do of that id and keeps the
    others in their order; deleting again changes nothing more; and
    deleting a to-do just added under an id no stored to-do has gives back
    the stored list. *)
Theorem deleteTodo_effect (id0 nowIso value : string) (st : Store) :
  getTodos (deleteTodo id0 st) = filter (λ t, t_id t ≠ id0) (getTodos st)
  ∧ deleteTodo id0 (deleteTodo id0 st) = deleteTodo id0 st
  ∧ ((∀ t, t ∈ getTodos st → t_id t ≠ id0) →
     getTodos (deleteTodo id0 (addTodo trim id0 nowIso value st))
     = getTodos st).
Proof.
  split; [done|]. split.
  - unfold deleteTodo. rewrite getTodos_saveTodos, saveTodos_saveTodos.
    f_equal. rewrite list_filter_filter. apply list_filter_iff. tauto.
  - intros Hfresh.
    assert (filter (λ t, t_id t ≠ id0) (getTodos st) = getTodos st) as Hsame.
    { induction (getTodos st) as [|t l IH]; [done|].
      rewrite filter_cons_True by (apply Hfresh; by left).
      f_equal. apply IH. intros u Hu. apply Hfresh. by right. }
    unfold deleteTodo, addTodo. case_decide; rewrite getTodos_saveTodos.
    + done.
    + rewrite getTodos_saveTodos, filter_app, Hsame.
      rewrite filter_cons_False, filter_nil by (simpl; tauto).
      apply app_nil_r.
Qed.
End todo_forms.

(** ** Orderings of the lists *)

Lemma sort_ext {A} (cmp1 cmp2 : A → A → Z) (l : list A) :
  (∀ a b, cmp1 a b = cmp2 a b) → sort cmp1 l = sort cmp2 l.
Proof.
  intros Heq. induction l as [|x l IH]; simpl; [done|].
  rewrite IH. generalize (sort cmp2 l). intros k.
  induction k as [|y k IHk]; simpl; [done|].
  rewrite Heq. case_decide; [done|]. by rewrite IHk.
Qed.

(** A list sorted by a key of two values is the elements of the first
    value followed by those of the second. *)
Lemma sorted_two_keys {A} (key : A → Z) (l : list A) :
  (∀ x, key x = 0 ∨ key x = 1) →
  StronglySorted (λ a b, key a <= key b) l →
  l = filter (λ x, key x = 0) l ++ filter (λ x, key x = 1) l.
Proof.
  intros Hkey. induction 1 as [|x l Hl IH Hx]; [done|].
  rewrite !filter_cons. destruct (Hkey x) as [H0|H1].
  - rewrite decide_True, decide_False by lia. simpl. by f_equal.
  - rewrite decide_False, decide_True by lia.
    assert (filter (λ y, key y = 0) l = []) as ->.
    { clear IH Hl. induction l as [|y l IHl]; [done|].
      apply Forall_cons in Hx as [Hy Hx].
      rewrite filter_cons_False by lia. by apply IHl. }
    simpl. f_equal.
    clear IH Hl. induction l as [|y l IHl]; [done|].
    apply Forall_cons in Hx as [Hy Hx].
    destruct (Hkey y); [lia|].
    rewrite filter_cons_True by done. f_equal. by apply IHl.
Qed.

(** X7: the to-do list shows every stored to-do once: first the incomplete
    ones, then the completed ones, each group in stored order. *)
Theorem renderTodoList_order (st : Store) :
  listedTodos (renderTodoList st)
  = filter (λ t, negb (completed t)) (getTodos st)
    ++ filter (λ t, completed t) (getTodos st).
Proof.
  set (key := λ t : Todo, if completed t then 1 else 0).
  assert (listedTodos (renderTodoList st)
          = sort (λ a b, key a - key b) (getTodos st)) as ->.
  { unfold renderTodoList. case_decide as Hlen; simpl.
    - apply nil_length_inv in Hlen. by rewrite Hlen.
    - apply sort_ext. intros a b. unfold incompleteFirst, key.
      by destruct (completed a), (completed b). }
  rewrite (sorted_two_keys key (sort _ (getTodos st)));
    [|intros x; unfold key; destruct (completed x); auto
     |apply (sort_sorted key)].
  rewrite !(sort_filter key). f_equal.
  - apply list_filter_iff. intros t. unfold key.
    destruct (completed t); simpl; intuition lia.
  - apply list_filter_iff. intros t. unfold key.
    destruct (completed t); simpl; intuition lia.
Qed.

Lemma findIndex_first {A} (p : A → bool) (l1 l2 : list A) (x : A) :
  (∀ y, y ∈ l1 → p y = false) → p x = true →
  findIndex p (l1 ++ x :: l2) = Z.of_nat (length l1).
Proof.
  intros Hl1 Hx. induction l1 as [|y l1 IH]; simpl.
  - by rewrite Hx.
  - rewrite (Hl1 y) by by left.
    rewrite IH by (intros; apply Hl1; by right).
    rewrite decide_False by lia. lia.
Qed.

Lemma alter_middle {A} (f : A → A) (l1 l2 : list A) (x : A) :
  alter f (length l1) (l1 ++ x :: l2) = l1 ++ f x :: l2.
Proof. induction l1 as [|y l1 IH]; f_equal/=; auto. Qed.

(** Replacing the first element of a key, as the forms do. *)
Lemma replace_first {A} (key : A → string) (k : string) (f : A → A)
    (l1 l2 : list A) (x : A) :
  (∀ y, y ∈ l1 → key y ≠ k) → key x = k →
  (let index := findIndex (λ y, bool_decide (key y = k)) (l1 ++ x :: l2) in
   if decide (index ≠ -1) then alter f (Z.to_nat index) (l1 ++ x :: l2)
   else l1 ++ x :: l2)
  = l1 ++ f x :: l2.
Proof.
  intros Hl1 Hx. simpl. rewrite findIndex_first.
  - rewrite decide_True by lia. rewrite Nat2Z.id. apply alter_middle.
  - intros y Hy. apply bool_decide_eq_false_2. by apply Hl1.
  - by apply bool_decide_eq_true_2.
Qed.

(** The element whose key is strictly the least is the head of the sorted
    list. *)
Lemma sort_head {A} (key : A → Z) (l1 l2 : list A) (x : A) :
  (∀ y, y ∈ l1 ++ l2 → key x < key y) →
  head (sort (λ a b, key a - key b) (l1 ++ x :: l2)) = Some x.
Proof.
  intros Hleast.
  pose proof (sort_Permutation key (l1 ++ x :: l2)) as Hperm.
  pose proof (sort_sorted key (l1 ++ x :: l2)) as Hsorted.
  destruct (sort _ (l1 ++ x :: l2)) as [|h rest] eqn:Hs.
  - apply Permutation_nil_l in Hperm. by destruct l1.
  - simpl. f_equal.
    assert (h ∈ l1 ++ x :: l2) as Hh by (rewrite <- Hperm; by left).
    assert (x ∈ h :: rest) as Hx
      by (rewrite Hperm, elem_of_app, elem_of_cons; auto).
    apply StronglySorted_inv in Hsorted as [_ Hall].
    rewrite Forall_forall in Hall.
    apply elem_of_app in Hh as [Hh | [Hh|Hh]%elem_of_cons]; [|done|].
    + assert (key x < key h) by (apply Hleast, elem_of_app; auto).
      apply elem_of_cons in Hx as [Hx|Hx]; [done|].
      specialize (Hall x Hx). simpl in Hall. lia.
    + assert (key x < key h) by (apply Hleast, elem_of_app; auto).
      apply elem_of_cons in Hx as [Hx|Hx]; [done|].
      specialize (Hall x Hx). simpl in Hall. lia.
Qed.

Lemma StronglySorted_weaken {A} (R R' : A → A → Prop) (l : list A) :
  (∀ a b, R a b → R' a b) → StronglySorted R l → StronglySorted R' l.
Proof.
  intros HR. induction 1 as [|x l Hl IH Hx]; constructor; [done|].
  eapply Forall_impl; [exact Hx | apply HR].
Qed.

Lemma listedMemos_sort (stored : option (list Memo)) :
  listedMemos (renderMemoList stored)
  = sort (λ a b, - m_updatedAt a - - m_updatedAt b) (getMemos stored).
Proof.
  unfold renderMemoList. case_decide as Hlen; simpl.
  - apply nil_length_inv in Hlen. by rewrite Hlen.
  - apply sort_ext. intros a b. unfold latestFirst. lia.
Qed.

(** X8: the memo list shows every stored memo once, the latest update
    first, memos updated at the same instant in stored order. *)
Theorem renderMemoList_order (stored : option (list Memo)) :
  let listed := listedMemos (renderMemoList stored) in
  StronglySorted (λ a b, m_updatedAt b <= m_updatedAt a) listed
  ∧ listed ≡ₚ getMemos stored
  ∧ ∀ t, filter (λ m, m_updatedAt m = t) listed
         = filter (λ m, m_updatedAt m = t) (getMemos stored).
Proof.
  intros listed. unfold listed. rewrite listedMemos_sort.
  split; [|split].
  - eapply StronglySorted_weaken;
      [|apply (sort_sorted (λ m, - m_updatedAt m))].
    simpl. intros a b. lia.
  - apply (sort_Permutation (λ m, - m_updatedAt m)).
  - intros t.
    pose proof (sort_filter (λ m, - m_updatedAt m) (- t) (getMemos stored))
      as Hst.
    etransitivity; [|etransitivity; [exact Hst|]];
      apply list_filter_iff; intros m; simpl; lia.
Qed.

(** ** The forms *)

Lemma map_alter_same {A B} (g : A → B) (f : A → A) (i : nat) (l : list A) :
  (∀ x, g (f x) = g x) → map g (alter f i l) = map g l.
Proof.
  intros Hg. revert i.
  induction l as [|x l IH]; intros [|i]; f_equal/=; auto.
Qed.

Lemma filter_all {A} (P : A → Prop) `{!∀ x, Decision (P x)} (l : list A) :
  (∀ x, x ∈ l → P x) → filter P l = l.
Proof.
  induction l as [|x l IH]; intros Hall; [done|].
  rewrite filter_cons_True by (apply Hall; by left).
  f_equal. apply IH. intros y Hy. apply Hall. by right.
Qed.

Lemma findIndex_absent {A} (key : A → string) (k : string) (l : list A) :
  (∀ x, x ∈ l → key x ≠ k) →
  findIndex (λ x, bool_decide (key x = k)) l = -1.
Proof.
  intros Hall. apply findIndex_none. intros x Hx.
  apply bool_decide_eq_false_2. by apply Hall.
Qed.

Section forms_properties.
Variable trim : string → string.

(** X9: a memo saved at an instant later than every stored update is the
    first of the memo list: a new one (empty id field) is stored last with
    that instant as creation and update; an edit replaces title, content
    and update instant of the first memo of the id, in place, keeping its
    id and creation instant; an edit of an id that is not stored changes
    no memo; a title blank after trimming saves nothing. *)
Theorem saveMemoForm_latest (newId : string) (now : Z)
    (id0 title0 content : string) (stored : option (list Memo)) :
  (∀ m, m ∈ getMemos stored → m_updatedAt m < now) →
  let stored' := saveMemoForm trim newId now id0 title0 content stored in
  let listed := listedMemos (renderMemoList stored') in
  (trim title0 = "" → stored' = stored)
  ∧ (trim title0 ≠ "" → id0 = "" →
     let fresh := {| m_id := newId; m_title := trim title0;
                     m_content := content; m_createdAt := now;
                     m_updatedAt := now |} in
     getMemos stored' = getMemos stored ++ [fresh]
     ∧ head listed = Some fresh)
  ∧ (trim title0 ≠ "" → id0 ≠ "" →
     ∀ l1 m l2, getMemos stored = l1 ++ m :: l2 →
                m_id m = id0 → (∀ y, y ∈ l1 → m_id y ≠ id0) →
     let edited := {| m_id := m_id m; m_title := trim title0;
                      m_content := content; m_createdAt := m_createdAt m;
                      m_updatedAt := now |} in
     getMemos stored' = l1 ++ edited :: l2
     ∧ head listed = Some edited)
  ∧ (trim title0 ≠ "" → id0 ≠ "" →
     (∀ m, m ∈ getMemos stored → m_id m ≠ id0) →
     getMemos stored' = getMemos stored).
Proof.
  intros Hclock stored' listed. unfold listed, stored', saveMemoForm.
  split; [|split; [|split]].
  - intros ->. done.
  - intros Ht ->. rewrite decide_False by done. simpl.
    split; [done|]. rewrite listedMemos_sort. simpl.
    rewrite (sort_head (λ m, - m_updatedAt m)); [done|].
    intros y Hy. rewrite app_nil_r in Hy. apply Hclock in Hy. simpl. lia.
  - intros Ht Hid l1 m l2 Hl Hm Hl1.
    rewrite decide_False by done. rewrite decide_True by done.
    rewrite Hl.
    pose proof (replace_first m_id id0
      (λ m, {| m_id := m_id m; m_title := trim title0; m_content := content;
               m_createdAt := m_createdAt m; m_updatedAt := now |})
      l1 l2 m Hl1 Hm) as Hrep.
    simpl in Hrep. split.
    + exact Hrep.
    + rewrite listedMemos_sort. unfold getMemos, loadFromStorage.
      rewrite Hrep.
      rewrite (sort_head (λ m, - m_updatedAt m)); [done|].
      intros y Hy. simpl.
      assert (y ∈ getMemos stored) as Hin.
      { rewrite Hl. rewrite elem_of_app in Hy.
        rewrite elem_of_app, elem_of_cons. tauto. }
      apply Hclock in Hin. lia.
  - intros Ht Hid Hnone.
    rewrite decide_False by done. rewrite decide_True by done.
    rewrite (findIndex_absent m_id id0 _ Hnone).
    rewrite decide_False by lia. done.
Qed.

Lemma dashboard_same_visible (c : Clock) (l : list Schedule) (st : Store) :
  filter (λ s, getDaysRemaining c (s_date s) >= -14) l
  = filter (λ s, getDaysRemaining c (s_date s) >= -14) (getSchedules st) →
  dashboard c (saveSchedules l st) = dashboard c st.
Proof.
  intros Hvis.
  unfold dashboard, updateDashboard, sortedItems, allItems, recentSchedules,
    validSchedules.
  change (getSchedules (saveSchedules l st)) with l. by rewrite Hvis.
Qed.

(** X10: a new schedule (empty id field) with a title and a date is stored
    last; when its date is at most 14 days past it is in the dashboard list
    and the total count grows by one; when its date is more than 14 days
    past it is stored and the dashboard stays exactly as it was.  With a
    title blank after trimming, or no date, nothing is stored. *)
Theorem saveSchedule_new (c : Clock) (newId title0 : string)
    (date0 : option Z) (memo0 : string) (st : Store) :
  let st' := saveSchedule trim newId "" title0 date0 memo0 st in
  (trim title0 = "" ∨ date0 = None → st' = st)
  ∧ ∀ d, date0 = Some d → trim title0 ≠ "" →
      let fresh := {| s_id := newId; s_title := trim title0; s_date := d;
                      s_memo := trim memo0 |} in
      getSchedules st' = getSchedules st ++ [fresh]
      ∧ (getDaysRemaining c d >= -14 →
         of_schedule fresh ∈ shownItems (dashboard c st')
         ∧ totalCount (stats (dashboard c st'))
           = S (totalCount (stats (dashboard c st))))
      ∧ (getDaysRemaining c d < -14 → dashboard c st' = dashboard c st).
Proof.
  intros st'. unfold st', saveSchedule. split.
  - intros [Ht | ->]; [|done]. destruct date0; [|done].
    by rewrite decide_True.
  - intros d -> Ht. rewrite decide_False by done.
    rewrite decide_False by tauto.
    set (fresh := {| s_id := newId; s_title := trim title0; s_date := d;
                     s_memo := trim memo0 |}).
    split; [done|]. split.
    + intros Hd. split.
      * rewrite shownItems_dashboard, elem_of_sortedItems. left.
        apply elem_of_map. exists fresh. split; [done|].
        apply list_elem_of_filter. split; [done|].
        change (fresh ∈ getSchedules st ++ [fresh]).
        rewrite elem_of_app, list_elem_of_singleton. auto.
      * change (length (filter (λ s, getDaysRemaining c (s_date s) >= -14)
                          (getSchedules st ++ [fresh]))
                = S (length (recentSchedules c st))).
        rewrite filter_app, filter_cons_True, filter_nil by done.
        rewrite length_app. unfold recentSchedules. simpl. lia.
    + intros Hd. apply dashboard_same_visible.
      rewrite filter_app, filter_cons_False, filter_nil by (simpl; lia).
      apply app_nil_r.
Qed.

(** X11: an edit of a schedule (id field filled) replaces title, date and
    memo of the first stored schedule of that id, in place and keeping the
    id; when no stored schedule has the id the edit is dropped and the
    schedules stay as they were. *)
Theorem saveSchedule_edit (newId id0 title0 : string) (d : Z)
    (memo0 : string) (st : Store) :
  id0 ≠ "" → trim title0 ≠ "" →
  let st' := saveSchedule trim newId id0 title0 (Some d) memo0 st in
  (∀ l1 s l2, getSchedules st = l1 ++ s :: l2 →
              s_id s = id0 → (∀ y, y ∈ l1 → s_id y ≠ id0) →
              getSchedules st'
              = l1 ++ {| s_id := id0; s_title := trim title0; s_date := d;
                         s_memo := trim memo0 |} :: l2)
  ∧ ((∀ s, s ∈ getSchedules st → s_id s ≠ id0) →
     getSchedules st' = getSchedules st).
Proof.
  intros Hid Ht st'. unfold st', saveSchedule.
  rewrite decide_False by done. rewrite decide_True by done.
  change (getSchedules (saveSchedules ?l st)) with l. split.
  - intros l1 s l2 Hl Hs Hl1.
    pose proof (replace_first s_id id0
      (λ s, {| s_id := s_id s; s_title := trim title0; s_date := d;
               s_memo := trim memo0 |}) l1 l2 s Hl1 Hs) as Hrep.
    simpl in Hrep. rewrite Hl. etransitivity; [exact Hrep|].
    by rewrite Hs.
  - intros Hnone. rewrite (findIndex_absent s_id id0 _ Hnone).
    rewrite decide_False by lia. done.
Qed.

(** X12: once saved through the form, a routine list in which every weekly
    routine has a weekday keeps that property; a weekly routine with no
    weekday ticked is answered by an alert; and whenever the form does not
    report a save the store is as it was. *)
Theorem saveRoutine_wellformed (newId id0 title0 frequency0 : string)
    (checked : list Z) (st : Store) :
  (∀ r, r ∈ getRoutines st → frequency r = "weekly" → weekdays r ≠ []) →
  let result := saveRoutine trim newId id0 title0 frequency0 checked st in
  (∀ r, r ∈ getRoutines result.2 → frequency r = "weekly" → weekdays r ≠ [])
  ∧ (trim title0 ≠ "" → frequency0 = "weekly" → checked = [] →
     ∃ message, result.1 = Alerted message)
  ∧ (result.1 ≠ Saved → result.2 = st).
Proof.
  intros Hwf result. unfold result, saveRoutine.
  destruct (decide (trim title0 = "" ∨ frequency0 = "")) as [Hblank|Hfull].
  { simpl. split; [done|]. split; [|done]. intros Ht -> _.
    destruct Hblank; done. }
  set (weekdays0 := if decide (frequency0 = "weekly") then checked else []).
  destruct (decide (frequency0 = "weekly" ∧ length weekdays0 = 0%nat))
    as [Hempty|Hok].
  { simpl. split; [done|]. split; [eauto | done]. }
  simpl. split; [|split; [|done]].
  - assert (frequency0 = "weekly" → weekdays0 ≠ []) as Hnew.
    { intros Hw Hnil. apply Hok. split; [done|]. by rewrite Hnil. }
    intros r Hr Hw. case_decide as Hid.
    + case_decide as Hidx.
      * change (getRoutines (saveRoutines ?l st)) with l in Hr.
        apply list_elem_of_lookup in Hr as [j Hj].
        destruct (decide (j = Z.to_nat
          (findIndex (λ r, bool_decide (r_id r = id0)) (getRoutines st))))
          as [->|Hne].
        -- rewrite list_lookup_alter, decide_True in Hj by done.
           destruct (getRoutines st !! _) as [r0|] eqn:Hr0; [|done].
           simpl in Hj. injection Hj as <-. simpl in *.
           by apply Hnew.
        -- rewrite list_lookup_alter_ne in Hj by done.
           apply (Hwf r); [|done]. by eapply list_elem_of_lookup_2.
      * by apply Hwf.
    + change (getRoutines (saveRoutines ?l st)) with l in Hr.
      apply elem_of_app in Hr as [Hr | ->%list_elem_of_singleton].
      * by apply Hwf.
      * simpl in *. by apply Hnew.
  - intros Ht -> ->. exfalso. apply Hok. done.
Qed.

(** X13: a routine form with a title, a frequency and, when weekly, at
    least one weekday is saved.  A new routine (empty id field) is stored
    last and enabled, with the ticked weekdays when weekly and none
    otherwise, and is among the routines due today exactly when it is daily,
    or weekly with today's weekday ticked.  An edit keeps the id and the
    enabled flag of every stored routine. *)
Theorem saveRoutine_saved (c : Clock) (newId id0 title0 frequency0 : string)
    (checked : list Z) (st : Store) :
  trim title0 ≠ "" → frequency0 ≠ "" →
  (frequency0 = "weekly" → checked ≠ []) →
  let result := saveRoutine trim newId id0 title0 frequency0 checked st in
  let dayOfWeek := getDay c (now c) in
  result.1 = Saved
  ∧ (id0 = "" →
     let fresh := {| r_id := newId; r_title := trim title0;
                     frequency := frequency0;
                     weekdays := if decide (frequency0 = "weekly")
                                 then checked else [];
                     enabled := true |} in
     getRoutines result.2 = getRoutines st ++ [fresh]
     ∧ (fresh ∈ dueRoutines dayOfWeek (getRoutines result.2)
        ↔ frequency0 = "daily"
          ∨ (frequency0 = "weekly" ∧ dayOfWeek ∈ checked)))
  ∧ (id0 ≠ "" →
     map r_id (getRoutines result.2) = map r_id (getRoutines st)
     ∧ map enabled (getRoutines result.2) = map enabled (getRoutines st)).
Proof.
  intros Ht Hf Hweek result dayOfWeek. unfold result, saveRoutine.
  rewrite decide_False by tauto.
  rewrite decide_False.
  2:{ intros [Hw Hlen]. rewrite decide_True in Hlen by done.
      apply nil_length_inv in Hlen. by apply Hweek. }
  simpl. split; [done|]. split.
  - intros ->. rewrite decide_False by (intros Hne; by apply Hne).
    change (getRoutines (saveRoutines ?l st)) with l.
    split; [done|].
    rewrite elem_of_dueRoutines. unfold isDue. simpl.
    rewrite elem_of_app, list_elem_of_singleton.
    case_decide as Hw; [intuition | ].
    split; [intuition congruence|]. intros [Hd | [Hw' _]]; [|done].
    intuition.
  - intros Hid. rewrite decide_True by done.
    change (getRoutines (saveRoutines ?l st)) with l.
    case_decide; [|done].
    split; by apply map_alter_same.
Qed.

End forms_properties.

Lemma saveMemoForm_latest_witness :
  head (listedMemos (renderMemoList
          (saveMemoForm (λ s, s) "m2" 5 "" "note" "body"
             (Some [ {| m_id := "m1"; m_title := "old"; m_content := "";
                        m_createdAt := 1; m_updatedAt := 1 |} ]))))
  = Some {| m_id := "m2"; m_title := "note"; m_content := "body";
            m_createdAt := 5; m_updatedAt := 5 |}.
Proof.
  assert ("note" ≠ "") as Ht by discriminate.
  apply (saveMemoForm_latest (λ s, s) "m2" 5 "" "note" "body"
           (Some [ {| m_id := "m1"; m_title := "old"; m_content := "";
                      m_createdAt := 1; m_updatedAt := 1 |} ]));
    [|exact Ht|reflexivity].
  intros m Hm. apply list_elem_of_singleton in Hm as ->. simpl. lia.
Defined.

Lemma saveSchedule_edit_witness :
  getSchedules (saveSchedule (λ s, s) "s2" "s1" "essay" (Some 3) ""
                  store_due_today)
  = [] ++ {| s_id := "s1"; s_title := "essay"; s_date := 3; s_memo := "" |}
       :: [].
Proof.
  assert ("s1" ≠ "") as Hid by discriminate.
  assert ("essay" ≠ "") as Ht by discriminate.
  apply (proj1 (saveSchedule_edit (λ s, s) "s2" "s1" "essay" 3 ""
                  store_due_today Hid Ht) [] (report 0) []).
  - reflexivity.
  - reflexivity.
  - intros y Hy. by apply elem_of_nil in Hy.
Defined.

Lemma saveRoutine_wellformed_witness :
  ∃ message,
    (saveRoutine (λ s, s) "r2" "" "swim" "weekly" [] store_checked).1
    = Alerted message.
Proof.
  assert (∀ r, r ∈ getRoutines store_checked →
               frequency r = "weekly" → weekdays r ≠ []) as Hwf.
  { intros r Hr Hw. apply list_elem_of_singleton in Hr as ->. discriminate Hw. }
  apply (saveRoutine_wellformed (λ s, s) "r2" "" "swim" "weekly" []
           store_checked Hwf); [discriminate | reflexivity | reflexivity].
Defined.

Lemma saveRoutine_saved_witness :
  (saveRoutine (λ s, s) "r2" "" "swim" "weekly" [4] store_checked).1 = Saved.
Proof.
  apply (saveRoutine_saved (λ s, s) noon "r2" "" "swim" "weekly" [4]
           store_checked); discriminate.
Defined.

(** ** Deleting *)

Lemma listedMemos_Permutation (stored : option (list Memo)) :
  listedMemos (renderMemoList stored) ≡ₚ getMemos stored.
Proof.
  rewrite listedMemos_sort. apply (sort_Permutation (λ m, - m_updatedAt m)).
Qed.

(** X14: confirming the deletion of a schedule removes every schedule of
    that id and keeps the others in order; no schedule of that id is left in
    the dashboard list; routines, to-dos, completion log and memos are
    untouched, and the pending target is cleared. *)
Theorem confirmDelete_schedule (c : Clock) (id0 : string) (a : AppState) :
  let a' := confirmDelete (deleteScheduleConfirm id0 a) in
  getSchedules (store a')
  = filter (λ s, s_id s ≠ id0) (getSchedules (store a))
  ∧ (∀ it, it ∈ shownItems (dashboard c (store a')) →
           isRoutine it = false → id it ≠ id0)
  ∧ deadline_routines (store a') = deadline_routines (store a)
  ∧ deadline_todos (store a') = deadline_todos (store a)
  ∧ deadline_routine_checks (store a') = deadline_routine_checks (store a)
  ∧ deadline_memos a' = deadline_memos a
  ∧ deleteTarget a' = None.
Proof.
  intros a'. split; [done|]. split; [|done].
  intros it Hit Hnot. rewrite shownItems_dashboard in Hit.
  apply elem_of_sortedItems in Hit as [Hs | Hr].
  - apply elem_of_map in Hs as (s & -> & Hs).
    apply list_elem_of_filter in Hs as [_ Hs].
    change (getSchedules (store a'))
      with (filter (λ s, s_id s ≠ id0) (getSchedules (store a))) in Hs.
    by apply list_elem_of_filter in Hs as [? _].
  - apply elem_of_map in Hr as (r & -> & _). discriminate Hnot.
Qed.

(** X15: confirming the deletion of a routine removes every routine of that
    id; its occurrence is no longer in the dashboard feed; the completion
    log is left as it is, so the ids checked off today are read as before;
    schedules, to-dos and memos are untouched. *)
Theorem confirmDelete_routine (c : Clock) (id0 : string) (a : AppState) :
  let a' := confirmDelete (deleteRoutineConfirm id0 a) in
  getRoutines (store a')
  = filter (λ r, r_id r ≠ id0) (getRoutines (store a))
  ∧ (∀ it, it ∈ sortedItems c (store a') →
           isRoutine it = true → id it ≠ "routine_" +:+ id0)
  ∧ deadline_routine_checks (store a') = deadline_routine_checks (store a)
  ∧ getRoutineChecks c (store a') = getRoutineChecks c (store a)
  ∧ deadline_schedules (store a') = deadline_schedules (store a)
  ∧ deadline_todos (store a') = deadline_todos (store a)
  ∧ deadline_memos a' = deadline_memos a
  ∧ deleteTarget a' = None.
Proof.
  intros a'. split; [done|]. split; [|done].
  intros it Hit Hrt Hid.
  apply elem_of_sortedItems in Hit as [Hs | Hr].
  - apply elem_of_map in Hs as (s & -> & _). discriminate Hrt.
  - apply elem_of_map in Hr as (r & -> & Hr).
    apply elem_of_dueRoutines in Hr as (Hr & _ & _).
    change (getRoutines (store a'))
      with (filter (λ r, r_id r ≠ id0) (getRoutines (store a))) in Hr.
    apply list_elem_of_filter in Hr as [Hne _].
    apply Hne. injection Hid as Hsame. exact Hsame.
Qed.

(** X16: a confirmation acts once: with no pending target it changes
    nothing, and after a confirmation a second one changes nothing more;
    confirming the deletion of a memo removes every memo of that id from
    the memo list and leaves the store untouched. *)
Theorem confirmDelete_once (id0 : string) (a : AppState) :
  (deleteTarget a = None → confirmDelete a = a)
  ∧ confirmDelete (confirmDelete a) = confirmDelete a
  ∧ (let a' := confirmDelete (deleteMemoConfirm id0 a) in
     store a' = store a
     ∧ ∀ m, m ∈ listedMemos (renderMemoList (deadline_memos a')) ↔
            m ∈ getMemos (deadline_memos a) ∧ m_id m ≠ id0).
Proof.
  split; [|split].
  - unfold confirmDelete. by intros ->.
  - destruct (deleteTarget a) as [target|] eqn:Ht.
    + unfold confirmDelete at 2 3. rewrite Ht. reflexivity.
    + unfold confirmDelete. by rewrite Ht, Ht.
  - intros a'. split; [done|]. intros m.
    rewrite listedMemos_Permutation.
    change (getMemos (deadline_memos a'))
      with (filter (λ m, m_id m ≠ id0) (getMemos (deadline_memos a))).
    rewrite list_elem_of_filter. tauto.
Qed.

(** ** The completion log from day to day *)

Lemma toggle_log (c : Clock) (x : string) (st : Store) :
  parsedChecks (toggle c x st)
  = parsedChecks (saveRoutineChecks c (toggled x (getRoutineChecks c st)) st).
Proof. reflexivity. Qed.

Lemma lookup_save_is_Some (c : Clock) (ids : list string) (st : Store)
    (k : Z) :
  is_Some (parsedChecks (saveRoutineChecks c ids st) !! k) →
  k = getTodayString c
  ∨ (is_Some (parsedChecks st !! k)
     ∧ ¬ utcMidnight k < now c - 7 * MS_PER_DAY).
Proof.
  intros Hk. destruct (decide (k = getTodayString c)) as [|Hne]; [by left|].
  right. rewrite lookup_save_other in Hk by done.
  case_decide; [by destruct Hk as [? ?] | done].
Qed.

(** X17: when the log holds no key later than today, it still holds none
    after a toggle, and on any later day the ids read as checked are none:
    each day starts with every routine unchecked. *)
Theorem checks_start_empty (c c' : Clock) (x : string) (st : Store) :
  (∀ k, is_Some (parsedChecks st !! k) → k <= getTodayString c) →
  (∀ k, is_Some (parsedChecks (toggle c x st) !! k) → k <= getTodayString c)
  ∧ (getTodayString c < getTodayString c' →
     getRoutineChecks c' (toggle c x st) = []).
Proof.
  intros Hpast.
  assert (∀ k, is_Some (parsedChecks (toggle c x st) !! k) →
               k <= getTodayString c) as Hpast'.
  { intros k Hk. rewrite toggle_log in Hk.
    apply lookup_save_is_Some in Hk as [-> | [Hk _]]; [lia | by apply Hpast]. }
  split; [done|]. intros Hlater. unfold getRoutineChecks.
  destruct (parsedChecks (toggle c x st) !! getTodayString c') eqn:Hk; [|done].
  assert (getTodayString c' <= getTodayString c); [|lia].
  apply Hpast'. by rewrite Hk.
Qed.

Lemma checks_start_empty_witness :
  getRoutineChecks {| now := 36 * 60 * 60 * 1000; tz := 0 |}
    (toggle noon "r1" store_old_entry) = [].
Proof.
  apply (checks_start_empty noon {| now := 36 * 60 * 60 * 1000; tz := 0 |}
           "r1" store_old_entry).
  - intros k [ids Hk]. change (parsedChecks store_old_entry)
      with (<[-10 := ["r1"]]> ({[0 := []]} : gmap Z (list string))) in Hk.
    apply lookup_insert_Some in Hk as [[<- _] | [_ Hk]]; [done|].
    apply lookup_singleton_Some in Hk as [<- _]. done.
  - reflexivity.
Defined.

(** X18: in a zone whose offset is less than a day, when the log holds no
    key later than today, after a save every key of the log is one of the
    eight days from [t-7] to [t]: the log never holds more than eight
    entries. *)
Theorem log_bounded (c : Clock) (ids : list string) (st : Store) :
  tz c < MS_PER_DAY →
  (∀ k, is_Some (parsedChecks st !! k) → k <= getTodayString c) →
  let t := getTodayString c in
  let log := parsedChecks (saveRoutineChecks c ids st) in
  (∀ k, is_Some (log !! k) → t - 7 <= k <= t)
  ∧ (size log <= 8)%nat.
Proof.
  intros Htz Hpast t log.
  pose proof (now_in_today c) as Hnow. fold t in Hnow.
  assert (∀ k, is_Some (log !! k) → t - 7 <= k <= t) as Hkeys.
  { intros k Hk. apply lookup_save_is_Some in Hk as [-> | [Hk Hexp]].
    - fold t. lia.
    - specialize (Hpast k Hk). fold t in Hpast.
      unfold utcMidnight in Hexp. split; [nia | done]. }
  split; [done|].
  rewrite <- size_dom.
  transitivity (size (list_to_set (seqZ (t - 7) 8) : gset Z)).
  - apply subseteq_size. intros k Hk. apply elem_of_dom in Hk.
    apply elem_of_list_to_set, elem_of_seqZ.
    specialize (Hkeys k Hk). lia.
  - rewrite size_list_to_set by apply NoDup_seqZ. by rewrite length_seqZ.
Qed.

Lemma log_bounded_witness :
  (size (parsedChecks (saveRoutineChecks noon [] store_old_entry)) <= 8)%nat.
Proof.
  assert (tz noon < MS_PER_DAY) as Htz by reflexivity.
  apply (log_bounded noon [] store_old_entry Htz).
  intros k [ids Hk]. change (parsedChecks store_old_entry)
    with (<[-10 := ["r1"]]> ({[0 := []]} : gmap Z (list string))) in Hk.
  apply lookup_insert_Some in Hk as [[<- _] | [_ Hk]]; [done|].
  apply lookup_singleton_Some in Hk as [<- _]. done.
Defined.

Lemma shownRows_render (c : Clock) (st : Store) :
  shownRows (renderTodayRoutines c st)
  = map (λ r, (r, bool_decide (r_id r ∈ getRoutineChecks c st)))
      (dueRoutines (getDay c (now c)) (getRoutines st)).
Proof.
  unfold renderTodayRoutines. simpl. case_decide as Hlen; [|done].
  apply nil_length_inv in Hlen. by rewrite Hlen.
Qed.

(** X19: when today's list of completed ids has no repetition, a toggle
    redraws the "today" panel with the same routines in the same order, the
    row of the toggled id with its check flipped and every other row as it
    was, and redraws the dashboard exactly as it was. *)
Theorem toggleRoutineCheck_rows (c : Clock) (x : string) (st : Store) :
  NoDup (getRoutineChecks c st) →
  let result := toggleRoutineCheck c x st in
  let before := shownRows (renderTodayRoutines c st) in
  let after := shownRows result.2.1 in
  after
  = map (λ row : Routine * bool,
           if decide (r_id row.1 = x) then (row.1, negb row.2) else row)
      before
  ∧ result.2.2 = dashboard c st.
Proof.
  intros Hnd result before after. split; [|reflexivity].
  unfold after, before, result, toggleRoutineCheck. simpl.
  rewrite !shownRows_render.
  change (getRoutines (saveRoutineChecks c ?ids st)) with (getRoutines st).
  rewrite getRoutineChecks_save by done.
  rewrite map_map. apply map_ext. intros r. simpl.
  pose proof (proj2 (toggled_elem_of x (r_id r) _ Hnd)) as Hmem.
  case_decide as Hr.
  - f_equal. apply eq_true_iff_eq.
    rewrite negb_true_iff, bool_decide_eq_true, bool_decide_eq_false.
    rewrite Hmem, Hr. intuition.
  - f_equal. apply eq_true_iff_eq. rewrite !bool_decide_eq_true.
    rewrite Hmem. intuition.
Qed.

Lemma toggleRoutineCheck_rows_witness :
  shownRows (toggleRoutineCheck noon "r1" store_checked).2.1
  = map (λ row : Routine * bool,
           if decide (r_id row.1 = "r1") then (row.1, negb row.2) else row)
      (shownRows (renderTodayRoutines noon store_checked)).
Proof.
  apply (toggleRoutineCheck_rows noon "r1" store_checked).
  change (getRoutineChecks noon store_checked) with ["r1"].
  apply NoDup_singleton.
Defined.

(** * Properties of activation and fetch *)

Import Worker.

(** The entry a cache of the state holds for a URL. *)
Lemma caches_match_Some (order : list string) (s : State) (u : string)
    (r : Response) :
  caches_match order s u = Some r →
  ∃ name, name ∈ order ∧ caches s !! name ≫= (λ m, m !! u) = Some r.
Proof.
  induction order as [|n order IH]; simpl; [done|].
  destruct (caches s !! n ≫= (λ m, m !! u)) as [r'|] eqn:Hn.
  - intros [= ->]. exists n. split; [by left | done].
  - intros (name & Hin & Hr)%IH. exists name. split; [by right | done].
Qed.

Lemma caches_match_None (order : list string) (s : State) (u : string) :
  caches_match order s u = None
  ↔ ∀ name, name ∈ order → caches s !! name ≫= (λ m, m !! u) = None.
Proof.
  induction order as [|n order IH]; simpl.
  - split; [|done]. intros _ name Hn. by apply elem_of_nil in Hn.
  - destruct (caches s !! n ≫= (λ m, m !! u)) as [r'|] eqn:Hn.
    + split; [done|]. intros H. specialize (H n (list_elem_of_here _ _)).
      congruence.
    + rewrite IH. split.
      * intros H name [->|Hin]%elem_of_cons; auto.
      * intros H name Hin. apply H. by right.
Qed.

Lemma caches_match_only (order : list string) (s : State) (u : string)
    (r : Response) :
  (∀ name r', name ∈ order →
              caches s !! name ≫= (λ m, m !! u) = Some r' → r' = r) →
  (∃ name, name ∈ order ∧ caches s !! name ≫= (λ m, m !! u) = Some r) →
  caches_match order s u = Some r.
Proof.
  intros Hall (name & Hin & Hr).
  destruct (caches_match order s u) as [r'|] eqn:Hm.
  - apply caches_match_Some in Hm as (n & Hn & Hr').
    f_equal. by apply (Hall n).
  - rewrite caches_match_None in Hm. rewrite (Hm name Hin) in Hr. done.
Qed.

Lemma lookup_caches_deleted (stale : list string) (s : State)
    (name : string) :
  caches (foldr caches_delete s stale) !! name
  = if decide (name ∈ stale) then None else caches s !! name.
Proof.
  induction stale as [|n stale IH]; simpl; [done|].
  destruct (decide (n = name)) as [->|Hne].
  - rewrite lookup_delete_eq. rewrite decide_True; [done | by left].
  - rewrite lookup_delete_ne, IH by done.
    repeat case_decide; try done.
    + exfalso. auto using list_elem_of_further.
    + match goal with H : name ∈ n :: stale |- _ =>
        apply elem_of_cons in H as [->|?]; done end.
Qed.

Lemma activate_lookup (order : list string) (s : State) :
  (∀ name, is_Some (caches s !! name) → name ∈ order) →
  (∀ name, name ≠ CACHE_NAME →
           caches (state (activate order s)) !! name = None)
  ∧ caches (state (activate order s)) !! CACHE_NAME
    = caches s !! CACHE_NAME.
Proof.
  intros Hall. split.
  - intros name Hne. unfold activate. simpl.
    rewrite lookup_caches_deleted. case_decide as Hin; [done|].
    destruct (caches s !! name) as [m|] eqn:Hm; [|done].
    exfalso. apply Hin. apply list_elem_of_filter. split; [done|].
    apply Hall. by rewrite Hm.
  - unfold activate. simpl. rewrite lookup_caches_deleted.
    rewrite decide_False; [done|].
    intros H. apply list_elem_of_filter in H as [H _]. by apply H.
Qed.

(** X20: when [order] names every cache, activation leaves no cache under
    another name than the current one, leaves the current cache with what
    it held, and claims the open pages. *)
Theorem activate_keeps_current (order : list string) (s : State) :
  (∀ name, is_Some (caches s !! name) → name ∈ order) →
  let w := activate order s in
  (∀ name, name ≠ CACHE_NAME → caches (state w) !! name = None)
  ∧ caches (state w) !! CACHE_NAME = caches s !! CACHE_NAME
  ∧ (∀ u, cached (state w) u = cached s u)
  ∧ claimed w = true.
Proof.
  intros Hall w. destruct (activate_lookup order s Hall) as [Hone Hcur].
  split; [done|]. split; [done|]. split; [|done].
  intros u. unfold cached. fold w in Hcur. by rewrite Hcur.
Qed.

Lemma activate_keeps_current_witness :
  caches (state (activate ["deadline-app-v0"]
                   {| caches := {["deadline-app-v0" := ∅]}; console := [];
                      skippedWaiting := false |}))
    !! "deadline-app-v0" = None.
Proof.
  apply (activate_keeps_current ["deadline-app-v0"]
           {| caches := {["deadline-app-v0" := ∅]}; console := [];
              skippedWaiting := false |}).
  - intros name [m Hm]. simpl in Hm.
    apply lookup_singleton_Some in Hm as [<- _]. apply list_elem_of_here.
  - discriminate.
Defined.

Lemma caches_match_single (order : list string) (s : State) (u : string) :
  (∀ name, name ≠ CACHE_NAME → caches s !! name = None) →
  (∀ name, is_Some (caches s !! name) → name ∈ order) →
  caches_match order s u = cached s u.
Proof.
  intros Hone Hall. unfold cached.
  destruct (caches s !! CACHE_NAME ≫= (λ m, m !! u)) as [r|] eqn:Hc.
  - apply caches_match_only.
    + intros name r' _ Hr'. destruct (decide (name = CACHE_NAME)) as [->|Hne].
      * congruence.
      * rewrite (Hone name Hne) in Hr'. done.
    + exists CACHE_NAME. split; [|done]. apply Hall.
      destruct (caches s !! CACHE_NAME); [eauto | done].
  - apply caches_match_None. intros name _.
    destruct (decide (name = CACHE_NAME)) as [->|Hne]; [done|].
    by rewrite (Hone name Hne).
Qed.

Lemma lookup_put_copy (pf : Platform) (u : string) (r : Response)
    (s : State) (name u' : string) :
  caches (put_copy pf u r s) !! name ≫= (λ m, m !! u')
  = if decide (name = CACHE_NAME ∧ u' = u
               ∧ can_open pf CACHE_NAME = true
               ∧ can_store pf CACHE_NAME u = true)
    then Some r
    else caches s !! name ≫= (λ m, m !! u').
Proof.
  unfold put_copy, caches_open.
  destruct (can_open pf CACHE_NAME) eqn:Hopen; simpl.
  - destruct (can_store pf CACHE_NAME u) eqn:Hstore; simpl.
    + destruct (decide (name = CACHE_NAME)) as [->|Hne].
      * rewrite lookup_insert_eq. simpl.
        destruct (decide (u' = u)) as [->|Hu].
        -- rewrite lookup_insert_eq. by rewrite decide_True.
        -- rewrite lookup_insert_ne by done.
           rewrite decide_False by tauto.
           destruct (caches s !! CACHE_NAME) as [m|] eqn:Hc; simpl.
           ++ by rewrite Hc.
           ++ by rewrite lookup_insert_eq.
      * rewrite lookup_insert_ne by done. rewrite decide_False by tauto.
        destruct (caches s !! CACHE_NAME) as [m|] eqn:Hc; simpl; [done|].
        by rewrite lookup_insert_ne.
    + rewrite decide_False by (intros (_ & _ & _ & ?); done).
      destruct (caches s !! CACHE_NAME) as [m|] eqn:Hc; simpl; [done|].
      destruct (decide (name = CACHE_NAME)) as [->|Hne].
      * by rewrite lookup_insert_eq, Hc.
      * by rewrite lookup_insert_ne.
  - rewrite decide_False by (intros (_ & _ & ? & _); done). done.
Qed.

(** X21: a fetch changes no cache entry other than the one of the request
    in the current cache, and skips no waiting; it leaves the state as it
    found it unless the request was in no cache and the network answered
    with status 200 and a response of type basic, which is then the
    response given. *)
Theorem fetch_touches_one_entry (net : Net) (order : list string)
    (request : Request) (s : State) :
  let result := onFetch net order request s in
  (∀ name u, name ≠ CACHE_NAME ∨ u ≠ url request →
             caches result.2 !! name ≫= (λ m, m !! u)
             = caches s !! name ≫= (λ m, m !! u))
  ∧ skippedWaiting result.2 = skippedWaiting s
  ∧ (result.2 ≠ s →
     caches_match order s (url request) = None
     ∧ ∃ r, network (platform net) (url request) = Some r
            ∧ status r = 200
            ∧ response_type net (url request) = "basic"
            ∧ result.1 = Some r).
Proof.
  intros result. unfold result, onFetch.
  destruct (caches_match order s (url request)) as [hit|] eqn:Hm;
    [simpl; by repeat split|].
  destruct (network (platform net) (url request)) as [r|] eqn:Hn.
  - case_decide as Hbad; [simpl; by repeat split|]. simpl.
    split; [|split].
    + intros name u Hother. rewrite lookup_put_copy.
      rewrite decide_False; [done | tauto].
    + unfold put_copy, caches_open.
      destruct (can_open _ _); [|done]. simpl.
      by destruct (can_store _ _ _).
    + intros _. split; [done|]. exists r.
      destruct (decide (status r = 200)); [|tauto].
      destruct (decide (response_type net (url request) = "basic"));
        [done | tauto].
  - case_decide; simpl; by repeat split.
Qed.

(** X22: when a request that is in no cache is answered by the network with
    status 200 and type basic, and the current cache can be opened and
    written, the response is given and stored, and from then on a request
    for the same URL is answered with that response from the cache,
    whatever the network does, the state staying as it is. *)
Theorem fetch_then_served_from_cache (net : Net) (order : list string)
    (request : Request) (s : State) (r : Response) :
  (∀ name, is_Some (caches s !! name) → name ∈ order) →
  caches_match order s (url request) = None →
  network (platform net) (url request) = Some r →
  status r = 200 → response_type net (url request) = "basic" →
  can_open (platform net) CACHE_NAME = true →
  can_store (platform net) CACHE_NAME (url request) = true →
  let result := onFetch net order request s in
  result.1 = Some r
  ∧ cached result.2 (url request) = Some r
  ∧ ∀ net' order' request',
      (∀ name, name ∈ order' ↔ is_Some (caches result.2 !! name)) →
      url request' = url request →
      onFetch net' order' request' result.2 = (Some r, result.2).
Proof.
  intros Hall Hmiss Hnet Hst Hty Hopen Hstore result.
  assert (result = (Some r, put_copy (platform net) (url request) r s))
    as ->.
  { unfold result, onFetch. rewrite Hmiss, Hnet.
    rewrite decide_False; [done|]. intros [?|?]; done. }
  simpl.
  assert (∀ name, caches (put_copy (platform net) (url request) r s) !! name
                    ≫= (λ m, m !! url request)
                  = if decide (name = CACHE_NAME) then Some r else None)
    as Hlook.
  { intros name. rewrite lookup_put_copy.
    destruct (decide (name = CACHE_NAME)) as [->|Hne].
    - by rewrite decide_True.
    - rewrite decide_False by tauto.
      destruct (caches s !! name) as [m|] eqn:Hname; [|done].
      rewrite caches_match_None in Hmiss.
      rewrite <- (Hmiss name); [by rewrite Hname|].
      apply Hall. by rewrite Hname. }
  split; [done|]. split.
  - unfold cached. rewrite Hlook. by rewrite decide_True.
  - intros net' order' request' Horder Hurl. unfold onFetch. rewrite Hurl.
    rewrite (caches_match_only order' _ (url request) r); [done| |].
    + intros name r' _ Hr'. rewrite Hlook in Hr'. case_decide; congruence.
    + exists CACHE_NAME. split.
      * apply Horder.
        specialize (Hlook CACHE_NAME). rewrite decide_True in Hlook by done.
        destruct (caches _ !! CACHE_NAME); [eauto | done].
      * rewrite Hlook. by rewrite decide_True.
Qed.

Lemma fetch_then_served_from_cache_witness :
  (onFetch {| platform := online; response_type := λ _, "basic" |} []
     {| url := "/data.json"; destination := "" |} fresh).1
  = Some (page "/data.json").
Proof.
  apply (fetch_then_served_from_cache
           {| platform := online; response_type := λ _, "basic" |} []
           {| url := "/data.json"; destination := "" |} fresh
           (page "/data.json")); try reflexivity.
  intros name [m Hm]. simpl in Hm. by rewrite lookup_empty in Hm.
Defined.

(** X23: after an install step that succeeded and an activation, a request
    for an asset of the manifest is answered from the cache with the
    response fetched at install, the network not being asked and the state
    staying as it is; and when the network fails, a navigation to a URL that
    is not cached is answered with the installed [/index.html], while any
    other request that is not cached is answered with nothing. *)
Theorem offline_after_install (pf : Platform) (s0 s1 : State)
    (order1 order2 : list string) (net : Net) (request : Request) :
  install pf s0 = (inr (), s1) →
  (∀ name, is_Some (caches s1 !! name) → name ∈ order1) →
  let s2 := state (activate order1 s1) in
  (∀ name, is_Some (caches s2 !! name) → name ∈ order2) →
  (url request ∈ ASSETS_TO_CACHE →
   ∃ r, fetch_ok pf (url request) = inr r
        ∧ onFetch net order2 request s2 = (Some r, s2))
  ∧ (cached s2 (url request) = None →
     network (platform net) (url request) = None →
     onFetch net order2 request s2
     = (if decide (destination request = "document")
        then match fetch_ok pf "/index.html" with
             | inr r => Some r
             | inl _ => None
             end
        else None, s2)).
Proof.
  intros Hinstall Horder1 s2 Horder2.
  pose proof (install_spec pf s0) as Hspec. rewrite Hinstall in Hspec.
  destruct Hspec as [Hassets _].
  destruct (activate_lookup order1 s1 Horder1) as [Hone Hcur].
  fold s2 in Hone, Hcur.
  assert (∀ u, cached s2 u = cached s1 u) as Hsame
    by (intros u; unfold cached; by rewrite Hcur).
  assert (∀ u, caches_match order2 s2 u = cached s1 u) as Hmatch.
  { intros u. rewrite caches_match_single by done. apply Hsame. }
  split.
  - intros Hurl. destruct (Hassets _ Hurl) as (_ & r & Hr & Hc).
    exists r. split; [done|]. unfold onFetch. by rewrite Hmatch, Hc.
  - intros Hmiss Hdown. unfold onFetch.
    rewrite Hmatch, <- Hsame, Hmiss, Hdown.
    case_decide; [|done]. f_equal. rewrite Hmatch.
    destruct (Hassets "/index.html") as (_ & r & Hr & Hc).
    { unfold ASSETS_TO_CACHE. apply list_elem_of_further, list_elem_of_here. }
    by rewrite Hr, Hc.
Qed.

Lemma addAll_other (pf : Platform) (cache : string) (urls : list string)
    (s : State) (name : string) :
  name ≠ cache →
  caches (addAll pf cache urls s).2 !! name = caches s !! name.
Proof.
  intros Hne. unfold addAll. destruct (fetch_all pf urls) as [e|rs]; [done|].
  destruct (forallb _ rs); simpl; [by rewrite lookup_insert_ne | done].
Qed.

(** The install step creates no cache but the current one. *)
Lemma install_names (pf : Platform) (s : State) (name : string) :
  is_Some (caches (install pf s).2 !! name) →
  name = CACHE_NAME ∨ is_Some (caches s !! name).
Proof.
  destruct (decide (name = CACHE_NAME)) as [|Hne]; [by left|].
  intros Hname. right. revert Hname.
  unfold install, andThen at 1 2, caches_open.
  destruct (can_open pf CACHE_NAME); [|done].
  unfold andThen, console_log, skipWaiting.
  match goal with
  | |- context [addAll pf CACHE_NAME ASSETS_TO_CACHE ?s0] =>
      pose proof (addAll_other pf CACHE_NAME ASSETS_TO_CACHE s0 name Hne)
        as Hadd;
      destruct (addAll pf CACHE_NAME ASSETS_TO_CACHE s0) as [[e|[]] s']
  end; simpl in *; rewrite Hadd;
    (destruct (caches s !! CACHE_NAME); [done|]);
    by rewrite lookup_insert_ne.
Qed.

Lemma offline_after_install_witness :
  ∃ r, fetch_ok online "/app.js" = inr r
       ∧ onFetch {| platform := app_js_unreachable;
                    response_type := λ _, "basic" |}
           [CACHE_NAME] {| url := "/app.js"; destination := "script" |}
           (state (activate [CACHE_NAME] (install online fresh).2))
         = (Some r, state (activate [CACHE_NAME] (install online fresh).2)).
Proof.
  assert (∀ name, is_Some (caches (install online fresh).2 !! name) →
                  name ∈ [CACHE_NAME]) as Hnames.
  { intros name [-> | [m Hm]]%install_names; [apply list_elem_of_here|].
    simpl in Hm. by rewrite lookup_empty in Hm. }
  apply (offline_after_install online fresh (install online fresh).2
           [CACHE_NAME] [CACHE_NAME]
           {| platform := app_js_unreachable; response_type := λ _, "basic" |}
           {| url := "/app.js"; destination := "script" |}).
  - vm_compute. reflexivity.
  - exact Hnames.
  - intros name [m Hm].
    destruct (decide (name = CACHE_NAME)) as [->|Hne];
      [apply list_elem_of_here|].
    exfalso.
    rewrite (proj1 (activate_lookup [CACHE_NAME] (install online fresh).2
                      Hnames) name Hne) in Hm.
    done.
  - simpl. do 3 apply list_elem_of_further. apply list_elem_of_here.
Defined.

(** ** The install step and the other entries *)

Lemma lookup_written_other (rs : list (string * Response))
    (m : gmap string Response) (u : string) :
  u ∉ map fst rs →
  foldl (λ (m : gmap string Response) ur, <[ur.1 := ur.2]> m) m rs !! u
  = m !! u.
Proof.
  revert m. induction rs as [|[u0 r0] rs IH]; simpl; intros m Hu; [done|].
  apply not_elem_of_cons in Hu as [Hne Hu].
  rewrite IH by done. by rewrite lookup_insert_ne.
Qed.

Lemma addAll_entries (pf : Platform) (cache : string) (urls : list string)
    (s : State) (name u : string) :
  name ≠ cache ∨ u ∉ urls →
  caches (addAll pf cache urls s).2 !! name ≫= (λ m, m !! u)
  = caches s !! name ≫= (λ m, m !! u).
Proof.
  intros Hother. unfold addAll.
  destruct (fetch_all pf urls) as [e|rs] eqn:Hfetch; [done|].
  apply fetch_all_inr in Hfetch as [Hfst _].
  destruct (forallb _ rs); simpl; [|done].
  destruct (decide (name = cache)) as [->|Hne].
  - rewrite lookup_insert_eq. simpl.
    rewrite lookup_written_other by (rewrite Hfst; tauto).
    by destruct (caches s !! cache).
  - by rewrite lookup_insert_ne.
Qed.

(** X24: whether it succeeds or fails, the install step changes no entry of
    another cache and no entry of the current cache whose URL is not in the
    manifest: what was cached at run time stays cached. *)
Theorem install_touches_manifest_only (pf : Platform) (s : State) :
  ∀ name u, name ≠ CACHE_NAME ∨ u ∉ ASSETS_TO_CACHE →
            caches (install pf s).2 !! name ≫= (λ m, m !! u)
            = caches s !! name ≫= (λ m, m !! u).
Proof.
  intros name u Hother.
  unfold install, andThen at 1 2, caches_open.
  destruct (can_open pf CACHE_NAME); [|done].
  unfold andThen, console_log, skipWaiting.
  match goal with
  | |- context [addAll pf CACHE_NAME ASSETS_TO_CACHE ?s0] =>
      pose proof (addAll_entries pf CACHE_NAME ASSETS_TO_CACHE s0 name u
                    Hother) as Hadd;
      destruct (addAll pf CACHE_NAME ASSETS_TO_CACHE s0) as [[e|[]] s']
  end; simpl in *; rewrite Hadd;
    (destruct (caches s !! CACHE_NAME) eqn:Hc; [done|]);
    (destruct (decide (name = CACHE_NAME)) as [->|Hne];
      [by rewrite lookup_insert_eq, Hc | by rewrite lookup_insert_ne]).
Qed.

Lemma install_touches_manifest_only_witness :
  caches (install online fresh).2 !! CACHE_NAME ≫= (λ m, m !! "/data.json")
  = caches fresh !! CACHE_NAME ≫= (λ m, m !! "/data.json").
Proof.
  apply (install_touches_manifest_only online fresh CACHE_NAME "/data.json").
  right. intros H.
  repeat (apply elem_of_cons in H as [H|H]; [discriminate H|]).
  by apply elem_of_nil in H.
Defined.

(** ** The counts and the cards *)

Lemma shownCards_dashboard (c : Clock) (st : Store) :
  shownCards (dashboard c st) = map (renderCard c) (sortedItems c st).
Proof.
  unfold dashboard, updateDashboard, renderScheduleList, shownCards. simpl.
  case_decide as Hlen; [|done].
  apply nil_length_inv in Hlen. by rewrite Hlen.
Qed.

Lemma length_filter_map {A B} (f : A → B) (P : B → Prop)
    `{!∀ y, Decision (P y)} (l : list A) :
  length (filter P (map f l)) = length (filter (λ x, P (f x)) l).
Proof.
  induction l as [|x l IH]; simpl; [done|].
  rewrite !filter_cons. case_decide; simpl; by rewrite IH.
Qed.

Lemma filter_none {A} (P : A → Prop) `{!∀ x, Decision (P x)} (l : list A) :
  (∀ x, x ∈ l → ¬ P x) → filter P l = [].
Proof.
  induction l as [|x l IH]; intros Hall; [done|].
  rewrite filter_cons_False by (apply Hall; by left).
  apply IH. intros y Hy. apply Hall. by right.
Qed.

(** Counting the cards of a kind: the routine cards aside, it is counting
    the visible schedules whose card is of that kind. *)
Lemma count_cards (c : Clock) (st : Store) (P : Card → Prop)
    `{!∀ k, Decision (P k)} :
  (∀ it, isRoutine it = true → getDaysRemaining c (date it) = 0 →
         ¬ P (renderCard c it)) →
  length (filter P (shownCards (dashboard c st)))
  = length (filter (λ s, P (renderCard c (of_schedule s)))
              (validSchedules c st)).
Proof.
  intros Hroutine. rewrite shownCards_dashboard, length_filter_map.
  rewrite (sortedItems_Permutation c st). unfold allItems.
  rewrite filter_app, length_app, length_filter_map.
  rewrite (filter_none _ (todayRoutines c st)); [simpl; lia|].
  intros it Hit.
  pose proof (todayRoutines_routine c st) as HF.
  rewrite Forall_forall in HF. destruct (HF it Hit) as [Hr Hd].
  apply Hroutine; [done|]. rewrite Hd. apply getDaysRemaining_today.
Qed.

(** X25: the counts of the summary are counts of cards of the list: the
    total is the number of cards that are not routine cards, the overdue
    count the number of cards styled overdue, and the urgent count the
    number of non-routine cards styled today or urgent. *)
Theorem counts_match_cards (c : Clock) (st : Store) :
  let cards := shownCards (dashboard c st) in
  let counts := stats (dashboard c st) in
  totalCount counts
  = length (filter (λ k, isRoutine (card_item k) = false) cards)
  ∧ overdueCount counts
    = length (filter (λ k, cardClass k = "schedule-card overdue") cards)
  ∧ urgentCount counts
    = length (filter (λ k, isRoutine (card_item k) = false
                           ∧ (cardClass k = "schedule-card today"
                              ∨ cardClass k = "schedule-card urgent"))
                cards).
Proof.
  intros cards counts. unfold cards.
  rewrite !count_cards.
  - unfold counts, dashboard, updateDashboard, updateStats, recentSchedules,
      validSchedules. simpl. split; [|split].
    + rewrite (filter_all
                 (λ s, isRoutine (card_item (renderCard c (of_schedule s)))
                       = false)) by (intros; reflexivity).
      done.
    + f_equal. rewrite !list_filter_filter. apply list_filter_iff.
      intros s. unfold renderCard. simpl.
      repeat case_decide; simpl; split; intros; try lia; try done;
        destruct_and?; try lia; try done.
    + f_equal. rewrite !list_filter_filter. apply list_filter_iff.
      intros s. unfold renderCard. simpl.
      repeat case_decide; simpl; split; intros;
        destruct_and?; destruct_or?; try lia; try done; auto.
  - intros it Hr Hd [Hn _]. unfold renderCard in Hn. simpl in Hn. congruence.
  - intros it Hr Hd Hcls. unfold renderCard in Hcls. simpl in Hcls.
    rewrite Hd in Hcls. done.
  - intros it Hr Hd Hn. unfold renderCard in Hn. simpl in Hn. congruence.
Qed.
